(** * minecraft-xp: the experience/level calculator of [minecraft-xp.js]

    A shallow embedding of the module's functions and the proofs of the
    properties its specification states about them.

    The module computes on JavaScript numbers, IEEE 754 binary64 values.
    Two models are given.

    - The exact model (top level) reads the formulas of the source over
      unbounded integers [Z] and exact rationals: no rounding, no overflow,
      one zero.  It is the arithmetic the formulas denote and the reference
      the binary64 model is compared with.  Properties that do not depend
      on the value of a rounded result are stated in it: the guard of
      [xpBetweenLevels], the structure of the loops that build lists, the
      order of the levels returned, the end points and the monotony of the
      bar.

    - The binary64 model (module [F64]) embeds the same functions on
      binary64 numbers: every operator rounds its exact result to the
      nearest representable value, a tie going to the even significand;
      zero is signed; an overflow gives an infinity; [NaN] propagates.  The
      [while] loop of [getLevelFromXP], which the source does not bound,
      carries the number of tests it may perform.  The properties that
      depend on the numbers computed are stated in this model.

    The two models agree while nothing is rounded: for levels up to
    [exact_level_bound] and experience below [exact_xp_bound]. *)

From Stdlib Require Import ZArith QArith Qround Qminmax Qabs Qpower Qreduction Lia Lqa List String Ascii Bool.
From Equations Require Import Equations.
From Equations.Prop Require Import Logic.
Import ListNotations.

Local Open Scope Z_scope.

(** * The exact model *)

(** ** Level-cost model *)

(** [xpForNextLevel(level)], lines 28-36. *)
Definition xpForNextLevel (level : Z) : Z :=
  if (0 <=? level) && (level <? 16) then 2 * level + 7
  else if (16 <=? level) && (level <? 31) then 5 * level - 38
  else 9 * level - 158.

(** [totalXPForLevel(level)], lines 44-53.  On an integer level both
    numerators are even (lemma [totalXP_numerators_even] below), so that in
    exact arithmetic the quotient by [2] is the integer quotient. *)
Definition totalXPForLevel (level : Z) : Z :=
  if level <=? 0 then 0
  else if level <=? 16 then level * level + 6 * level
  else if level <=? 31 then (5 * level * level - 81 * level + 720) / 2
  else (9 * level * level - 325 * level + 4440) / 2.

(** ** Level lookup *)

(** The [while] loop of [getLevelFromXP], lines 62-66, as a recursion on the
    loop variable [level].  Each iteration moves [level] one step closer to
    [totalXP], which a passed test places above it. *)
Equations? getLevelFromXP_loop (totalXP level : Z) : Z
  by wf (Z.to_nat (totalXP - level)) lt :=
  getLevelFromXP_loop totalXP level
    with inspect (totalXPForLevel (level + 1) <=? totalXP) => {
    | exist _ true Hcond => getLevelFromXP_loop totalXP (level + 1);
    | exist _ false _ => level }.
Proof.
  apply Z.leb_le in Hcond.
  assert (level < totalXP); [|lia].
  unfold totalXPForLevel in Hcond.
  destruct (Z.leb_spec (level + 1) 0); [lia|].
  destruct (Z.leb_spec (level + 1) 16); [nia|].
  destruct (Z.leb_spec (level + 1) 31).
  - pose proof (Z.mod_pos_bound
                  (5 * (level + 1) * (level + 1) - 81 * (level + 1) + 720) 2).
    pose proof (Z.div_mod
                  (5 * (level + 1) * (level + 1) - 81 * (level + 1) + 720) 2).
    nia.
  - pose proof (Z.mod_pos_bound
                  (9 * (level + 1) * (level + 1) - 325 * (level + 1) + 4440) 2).
    pose proof (Z.div_mod
                  (9 * (level + 1) * (level + 1) - 325 * (level + 1) + 4440) 2).
    nia.
Qed.

(** [getLevelFromXP(totalXP)], lines 61-67. *)
Definition getLevelFromXP (totalXP : Z) : Z := getLevelFromXP_loop totalXP 0.

(** ** Numbers without rounding, exceptions and strings *)

(** A number of the exact model: an exact rational, or one of the three
    non-finite values a division can produce; the two zeros are not
    distinguished. *)

Inductive num : Type :=
| Fin (q : Q)
| PInf
| NInf
| NaN.

Definition of_Z (z : Z) : num := Fin (inject_Z z).

Definition Qsign (q : Q) : comparison := (q ?= 0)%Q.

(** The operator [/]. *)
Definition js_div (a b : num) : num :=
  match a, b with
  | NaN, _ | _, NaN => NaN
  | Fin x, Fin y =>
      match Qsign y with
      | Eq => match Qsign x with Eq => NaN | Gt => PInf | Lt => NInf end
      | _ => Fin (x / y)
      end
  | Fin _, (PInf | NInf) => Fin 0
  | PInf, Fin y => match Qsign y with Lt => NInf | _ => PInf end
  | NInf, Fin y => match Qsign y with Lt => PInf | _ => NInf end
  | (PInf | NInf), (PInf | NInf) => NaN
  end.

(** The operator [*]. *)
Definition js_mul (a b : num) : num :=
  match a, b with
  | NaN, _ | _, NaN => NaN
  | Fin x, Fin y => Fin (x * y)
  | PInf, Fin y | Fin y, PInf =>
      match Qsign y with Eq => NaN | Gt => PInf | Lt => NInf end
  | NInf, Fin y | Fin y, NInf =>
      match Qsign y with Eq => NaN | Gt => NInf | Lt => PInf end
  | PInf, PInf | NInf, NInf => PInf
  | PInf, NInf | NInf, PInf => NInf
  end.

(** The operator [-]. *)
Definition js_sub (a b : num) : num :=
  match a, b with
  | NaN, _ | _, NaN => NaN
  | Fin x, Fin y => Fin (x - y)
  | PInf, PInf | NInf, NInf => NaN
  | PInf, _ | _, NInf => PInf
  | NInf, _ | _, PInf => NInf
  end.

(** [Math.min] of two arguments. *)
Definition Math_min (a b : num) : num :=
  match a, b with
  | NaN, _ | _, NaN => NaN
  | NInf, _ | _, NInf => NInf
  | PInf, y => y
  | x, PInf => x
  | Fin x, Fin y => if Qle_bool x y then Fin x else Fin y
  end.

(** [Math.round]: the nearest integer, a tie going to the one closer to
    plus infinity. *)
Definition round_half_up (q : Q) : Z := Qfloor (q + (1 # 2)).

Definition Math_round (a : num) : num :=
  match a with
  | Fin q => of_Z (round_half_up q)
  | _ => a
  end.

Inductive exn : Type :=
| Error (message : string)
| RangeError.

Inductive completion (A : Type) : Type :=
| Normal (a : A)
| Throw (e : exn).
Arguments Normal {A} a.
Arguments Throw {A} e.

Definition bind {A B : Type} (c : completion A) (k : A -> completion B)
  : completion B :=
  match c with
  | Normal a => k a
  | Throw e => Throw e
  end.

Notation "x <- c ;; k" := (bind c (fun x => k))
  (at level 61, c at next level, right associativity).

(** The abstract operation [ToIntegerOrInfinity]: [NaN] becomes [0], a finite
    number is truncated towards zero. *)
Inductive intinf : Type :=
| IntFin (z : Z)
| IntPInf
| IntNInf.

Definition Qtruncate (q : Q) : Z :=
  if Qle_bool 0 q then Qfloor q else Qceiling q.

Definition ToIntegerOrInfinity (a : num) : intinf :=
  match a with
  | NaN => IntFin 0
  | PInf => IntPInf
  | NInf => IntNInf
  | Fin q => IntFin (Qtruncate q)
  end.

Local Open Scope string_scope.

Fixpoint repeat_string (s : string) (n : nat) : string :=
  match n with
  | O => ""
  | S n' => s ++ repeat_string s n'
  end.

(** [String.prototype.repeat]: a negative or infinite count is a
    [RangeError]. *)
Definition String_repeat (s : string) (count : num) : completion string :=
  match ToIntegerOrInfinity count with
  | IntFin n =>
      if (n <? 0)%Z then Throw RangeError
      else Normal (repeat_string s (Z.to_nat n))
  | IntPInf | IntNInf => Throw RangeError
  end.

(** Number of occurrences of a character in a string. *)
Fixpoint count_char (c : ascii) (s : string) : nat :=
  match s with
  | EmptyString => O
  | String c' s' => (if Ascii.eqb c c' then 1 else 0) + count_char c s'
  end.

(** ** Progress bar *)

Definition defaultBarWidth : num := of_Z 20.

(** [renderProgressBar(current, total, barWidth)], lines 77-82.  The template
    literal evaluates the two [repeat] calls from left to right. *)
Definition renderProgressBar (current total barWidth : num)
  : completion string :=
  let progressRatio := Math_min (js_div current total) (of_Z 1) in
  let filledLength := Math_round (js_mul progressRatio barWidth) in
  let emptyLength := js_sub barWidth filledLength in
  filled <- String_repeat "#" filledLength ;;
  empty <- String_repeat "-" emptyLength ;;
  Normal ("[" ++ filled ++ empty ++ "]").

(** ** Status snapshot *)

Record XPStatus : Type := mkXPStatus {
  totalXP : Z;
  level : Z;
  xpAtCurrentLevelStart : Z;
  xpInLevel : Z;
  xpForLevelUp : Z;
  xpNeeded : Z;
  progressRatio : num;
  progressBar : string
}.

(** [getXPStatus(totalXP, barWidth)], lines 99-118. *)
Definition getXPStatus (totalXP : Z) (barWidth : num) : completion XPStatus :=
  let level := getLevelFromXP totalXP in
  let xpAtCurrentLevelStart := totalXPForLevel level in
  let xpInLevel := totalXP - xpAtCurrentLevelStart in
  let xpForLevelUp := xpForNextLevel level in
  let xpNeeded := xpForLevelUp - xpInLevel in
  let progressRatio := js_div (of_Z xpInLevel) (of_Z xpForLevelUp) in
  progressBar <-
    renderProgressBar (of_Z xpInLevel) (of_Z xpForLevelUp) barWidth ;;
  Normal (mkXPStatus totalXP level xpAtCurrentLevelStart xpInLevel
            xpForLevelUp xpNeeded progressRatio progressBar).

(** ** Derived operations *)

(** [xpBetweenLevels(startLevel, endLevel)], lines 137-142. *)
Definition xpBetweenLevels (startLevel endLevel : Z) : completion Z :=
  if startLevel >? endLevel
  then Throw (Error "startLevel cannot be greater than endLevel")
  else Normal (totalXPForLevel endLevel - totalXPForLevel startLevel).

Record Simulation : Type := mkSimulation {
  finalXP : Z;
  steps : list XPStatus
}.

(** The [for] loop of [simulateXPGain], lines 168-171, over the part of
    [gains] that is still to be read, with the two variables [xp] and
    [steps] it updates. *)
Fixpoint simulateXPGain_loop (gains : list Z) (xp : Z) (steps : list XPStatus)
  : completion Simulation :=
  match gains with
  | [] => Normal (mkSimulation xp steps)
  | gain :: gains' =>
      let xp := xp + gain in
      status <- getXPStatus xp defaultBarWidth ;;
      simulateXPGain_loop gains' xp (steps ++ [status])
  end.

(** [simulateXPGain(initialXP, gains)], lines 165-173. *)
Definition simulateXPGain (initialXP : Z) (gains : list Z)
  : completion Simulation :=
  simulateXPGain_loop gains initialXP [].

(** The objects [{ level, totalXP }] of [levelThresholds]. *)
Module Threshold.
Record t : Type := mk {
  level : Z;
  totalXP : Z
}.
End Threshold.

(** The [for] loop of [levelThresholds], lines 225-227, with its counter
    [level] and the array [thresholds] it extends. *)
Equations? levelThresholds_loop (upToLevel level : Z)
  (thresholds : list Threshold.t) : list Threshold.t
  by wf (Z.to_nat (upToLevel + 1 - level)) lt :=
  levelThresholds_loop upToLevel level thresholds
    with inspect (level <=? upToLevel)%Z => {
    | exist _ true Hcond =>
        levelThresholds_loop upToLevel (level + 1)%Z
          (thresholds ++ [Threshold.mk level (totalXPForLevel level)])%list;
    | exist _ false _ => thresholds }.
Proof.
  apply Z.leb_le in Hcond. lia.
Qed.

(** [levelThresholds(upToLevel)], lines 223-229. *)
Definition levelThresholds (upToLevel : Z) : list Threshold.t :=
  levelThresholds_loop upToLevel 0%Z [].

(** ** Notions of the specification *)

(** Rounding to the nearest integer with a tie going away from zero, the
    rounding rule the specification names: the sign of [q] times its
    magnitude rounded with a tie going up. *)
Definition round_half_away_from_zero (q : Q) : Z :=
  (Z.sgn (Qnum q) * Qfloor (Qabs q + (1 # 2)))%Z.

(** The sum [g1 + ... + gk] of a list of gains. *)
Definition sum_gains (gains : list Z) : Z := fold_right Z.add 0%Z gains.

(** The running sum of the level-up costs of the levels below [n]. *)
Fixpoint cost_sum (n : nat) : Z :=
  match n with
  | O => 0%Z
  | S k => (cost_sum k + xpForNextLevel (Z.of_nat k))%Z
  end.

Local Close Scope string_scope.
Local Open Scope Z_scope.

(** ** The binary64 model

    The exact model above computes the formulas of the source on unbounded
    integers and exact rationals.  The source computes on JavaScript
    numbers: IEEE 754 binary64 values, every arithmetic operation rounding
    its exact result to the nearest representable value, a tie going to the
    even significand.  Module [F64] embeds the same functions on such
    numbers.  A call that does not return is modelled by a bound on the
    number of loop tests: [Timeout] says that the bound was reached. *)

Module F64.

(** *** Rounding to binary64 *)

Definition pow2 (k : Z) : Q := (2 ^ k)%Q.

(** The binary exponent of a non-zero rational:
    [2 ^ mag q <= |q| < 2 ^ (mag q + 1)]. *)
Definition mag (q : Q) : Z :=
  let e0 := Z.log2 (Z.abs (Qnum q)) - Z.log2 (Zpos (Qden q)) in
  if Qle_bool (pow2 e0) (Qabs q) then e0 else e0 - 1.

(** Exponent of the last place: 53 significant bits, subnormal numbers
    below [2 ^ -1022]. *)
Definition fexp (q : Q) : Z := Z.max (mag q - 52) (-1074).

(** Nearest integer, a tie going to the even one. *)
Definition rne (x : Q) : Z :=
  let f := Qfloor x in
  match (x - inject_Z f ?= 1 # 2)%Q with
  | Lt => f
  | Gt => f + 1
  | Eq => if Z.even f then f else f + 1
  end.

(** Rounding with an unbounded exponent range. *)
Definition round_value (q : Q) : Q :=
  (inject_Z (rne (q * pow2 (- fexp q))) * pow2 (fexp q))%Q.

(** A JavaScript number: a finite value ([Fin 0] is [+0]), [-0], the two
    infinities, [NaN]. *)
Inductive float : Type :=
| Fin (q : Q)
| NZero
| PInf
| NInf
| NaN.

Definition neg (q : Q) : bool := negb (Qle_bool 0 q).

Definition zero (s : bool) : float := if s then NZero else Fin 0.

Definition inf (s : bool) : float := if s then NInf else PInf.

(** Rounding of an exact result [q] to a number; [s] is the sign of the
    result when [q] is zero. *)
Definition rnd (s : bool) (q : Q) : float :=
  if Qeq_bool q 0 then zero s
  else
    let r := round_value q in
    if Qeq_bool r 0 then zero (neg q)
    else if Qle_bool (pow2 1024) (Qabs r) then inf (neg q)
    else Fin (Qred r).

(** A rational is a binary64 value when rounding leaves it as it is. *)
Definition representable (q : Q) : Prop := (round_value q == q)%Q.

Definition is_representable (q : Q) : bool := Qeq_bool (round_value q) q.

(** An integer as a number; it is a binary64 value when the integer is,
    every integer of magnitude at most [2 ^ 53] for instance. *)
Definition of_Z (z : Z) : float := Fin (inject_Z z).

(** *** Operators *)

Definition sign (x : float) : bool :=
  match x with
  | Fin q => neg q
  | NZero | NInf => true
  | PInf | NaN => false
  end.

Definition val (x : float) : Q :=
  match x with
  | Fin q => q
  | _ => 0
  end.

Definition is_zero (x : float) : bool :=
  match x with
  | Fin q => Qeq_bool q 0
  | NZero => true
  | _ => false
  end.

Definition is_finite (x : float) : bool :=
  match x with
  | Fin _ | NZero => true
  | _ => false
  end.

(** The operator [*]. *)
Definition mul (x y : float) : float :=
  match x, y with
  | NaN, _ | _, NaN => NaN
  | (PInf | NInf), _ =>
      if is_zero y then NaN else inf (xorb (sign x) (sign y))
  | _, (PInf | NInf) =>
      if is_zero x then NaN else inf (xorb (sign x) (sign y))
  | _, _ => rnd (xorb (sign x) (sign y)) (val x * val y)
  end.

(** The operator [/]. *)
Definition div (x y : float) : float :=
  match x, y with
  | NaN, _ | _, NaN => NaN
  | (PInf | NInf), (PInf | NInf) => NaN
  | (PInf | NInf), _ => inf (xorb (sign x) (sign y))
  | _, (PInf | NInf) => zero (xorb (sign x) (sign y))
  | _, _ =>
      if is_zero y
      then if is_zero x then NaN else inf (xorb (sign x) (sign y))
      else rnd (xorb (sign x) (sign y)) (val x / val y)
  end.

(** The operator [+]. *)
Definition add (x y : float) : float :=
  match x, y with
  | NaN, _ | _, NaN => NaN
  | PInf, NInf | NInf, PInf => NaN
  | PInf, _ | _, PInf => PInf
  | NInf, _ | _, NInf => NInf
  | _, _ =>
      if is_zero x && is_zero y then zero (sign x && sign y)
      else rnd false (val x + val y)
  end.

(** Unary minus. *)
Definition opp (x : float) : float :=
  match x with
  | Fin q => if Qeq_bool q 0 then NZero else Fin (- q)
  | NZero => Fin 0
  | PInf => NInf
  | NInf => PInf
  | NaN => NaN
  end.

(** The operator [-]. *)
Definition sub (x y : float) : float := add x (opp y).

(** Comparison of two numbers; [None] when one of them is [NaN]. *)
Definition compare (x y : float) : option comparison :=
  match x, y with
  | NaN, _ | _, NaN => None
  | PInf, PInf | NInf, NInf => Some Eq
  | PInf, _ | _, NInf => Some Gt
  | NInf, _ | _, PInf => Some Lt
  | _, _ => Some (val x ?= val y)%Q
  end.

(** The operators [<], [<=], [>], [>=]. *)
Definition lt (x y : float) : bool :=
  match compare x y with Some Lt => true | _ => false end.

Definition le (x y : float) : bool :=
  match compare x y with Some (Lt | Eq) => true | _ => false end.

Definition gt (x y : float) : bool := lt y x.

Definition ge (x y : float) : bool := le y x.

(** [Math.min] of two arguments; [-0] is below [+0]. *)
Definition Math_min (x y : float) : float :=
  match compare x y with
  | None => NaN
  | Some Lt => x
  | Some Gt => y
  | Some Eq => if sign x then x else y
  end.

(** [Math.round]: the nearest integer, a tie going towards plus infinity;
    the result keeps the sign of the argument when it is zero. *)
Definition Math_round (x : float) : float :=
  match x with
  | Fin q =>
      let z := Qfloor (q + (1 # 2)) in
      if z =? 0 then zero (neg q) else of_Z z
  | _ => x
  end.

(** [Math.floor]. *)
Definition Math_floor (x : float) : float :=
  match x with
  | Fin q => of_Z (Qfloor q)
  | _ => x
  end.

(** *** Results of a call *)

Inductive outcome (A : Type) : Type :=
| Normal (a : A)
| Throw (e : exn)
| Timeout.
Arguments Normal {A} a.
Arguments Throw {A} e.
Arguments Timeout {A}.

Definition bind {A B : Type} (c : outcome A) (k : A -> outcome B)
  : outcome B :=
  match c with
  | Normal a => k a
  | Throw e => Throw e
  | Timeout => Timeout
  end.

Notation "x <~ c ;; k" := (bind c (fun x => k))
  (at level 61, c at next level, right associativity).

(** *** Strings *)

Definition ToIntegerOrInfinity (x : float) : intinf :=
  match x with
  | NaN | NZero => IntFin 0
  | PInf => IntPInf
  | NInf => IntNInf
  | Fin q => IntFin (Qtruncate q)
  end.

(** [String.prototype.repeat]. *)
Definition String_repeat (s : string) (count : float) : outcome string :=
  match ToIntegerOrInfinity count with
  | IntFin n =>
      if (n <? 0)%Z then Throw RangeError
      else Normal (repeat_string s (Z.to_nat n))
  | IntPInf | IntNInf => Throw RangeError
  end.

(** *** The functions of the module *)

(** [xpForNextLevel(level)], lines 28-36. *)
Definition xpForNextLevel (level : float) : float :=
  if ge level (of_Z 0) && lt level (of_Z 16)
  then add (mul (of_Z 2) level) (of_Z 7)
  else if ge level (of_Z 16) && lt level (of_Z 31)
  then sub (mul (of_Z 5) level) (of_Z 38)
  else sub (mul (of_Z 9) level) (of_Z 158).

(** [totalXPForLevel(level)], lines 44-53. *)
Definition totalXPForLevel (level : float) : float :=
  if le level (of_Z 0) then of_Z 0
  else if le level (of_Z 16)
  then add (mul level level) (mul (of_Z 6) level)
  else if le level (of_Z 31)
  then div (add (sub (mul (mul (of_Z 5) level) level)
                     (mul (of_Z 81) level)) (of_Z 720)) (of_Z 2)
  else div (add (sub (mul (mul (of_Z 9) level) level)
                     (mul (of_Z 325) level)) (of_Z 4440)) (of_Z 2).

(** The [while] loop of [getLevelFromXP], lines 63-65; [fuel] bounds the
    number of tests of its condition. *)
Fixpoint getLevelFromXP_loop (fuel : nat) (totalXP level : float)
  : outcome float :=
  match fuel with
  | O => Timeout
  | S fuel' =>
      if le (totalXPForLevel (add level (of_Z 1))) totalXP
      then getLevelFromXP_loop fuel' totalXP (add level (of_Z 1))
      else Normal level
  end.

(** [getLevelFromXP(totalXP)], lines 61-67. *)
Definition getLevelFromXP (fuel : nat) (totalXP : float) : outcome float :=
  getLevelFromXP_loop fuel totalXP (of_Z 0).

(** [renderProgressBar(current, total, barWidth)], lines 77-82. *)
Definition renderProgressBar (current total barWidth : float)
  : outcome string :=
  let progressRatio := Math_min (div current total) (of_Z 1) in
  let filledLength := Math_round (mul progressRatio barWidth) in
  let emptyLength := sub barWidth filledLength in
  filled <~ String_repeat "#" filledLength ;;
  empty <~ String_repeat "-" emptyLength ;;
  Normal ("[" ++ filled ++ empty ++ "]")%string.

Definition defaultBarWidth : float := of_Z 20.

Record XPStatus : Type := mkXPStatus {
  totalXP : float;
  level : float;
  xpAtCurrentLevelStart : float;
  xpInLevel : float;
  xpForLevelUp : float;
  xpNeeded : float;
  progressRatio : float;
  progressBar : string
}.

(** [getXPStatus(totalXP, barWidth)], lines 99-118. *)
Definition getXPStatus (fuel : nat) (totalXP barWidth : float)
  : outcome XPStatus :=
  level <~ getLevelFromXP fuel totalXP ;;
  let xpAtCurrentLevelStart := totalXPForLevel level in
  let xpInLevel := sub totalXP xpAtCurrentLevelStart in
  let xpForLevelUp := xpForNextLevel level in
  let xpNeeded := sub xpForLevelUp xpInLevel in
  let progressRatio := div xpInLevel xpForLevelUp in
  progressBar <~ renderProgressBar xpInLevel xpForLevelUp barWidth ;;
  Normal (mkXPStatus totalXP level xpAtCurrentLevelStart xpInLevel
            xpForLevelUp xpNeeded progressRatio progressBar).

(** [xpBetweenLevels(startLevel, endLevel)], lines 137-142. *)
Definition xpBetweenLevels (startLevel endLevel : float) : outcome float :=
  if gt startLevel endLevel
  then Throw (Error "startLevel cannot be greater than endLevel")
  else Normal (sub (totalXPForLevel endLevel) (totalXPForLevel startLevel)).

(** [xpAtPercent(level, percent)], lines 151-154. *)
Definition xpAtPercent (level percent : float) : float :=
  let xpForLevelUp := xpForNextLevel level in
  Math_round (mul percent xpForLevelUp).

Record Simulation : Type := mkSimulation {
  finalXP : float;
  steps : list XPStatus
}.

(** The [for] loop of [simulateXPGain], lines 168-171. *)
Fixpoint simulateXPGain_loop (fuel : nat) (gains : list float) (xp : float)
  (steps : list XPStatus) : outcome Simulation :=
  match gains with
  | [] => Normal (mkSimulation xp steps)
  | gain :: gains' =>
      let xp := add xp gain in
      status <~ getXPStatus fuel xp defaultBarWidth ;;
      simulateXPGain_loop fuel gains' xp (steps ++ [status])
  end.

(** [simulateXPGain(initialXP, gains)], lines 165-173. *)
Definition simulateXPGain (fuel : nat) (initialXP : float)
  (gains : list float) : outcome Simulation :=
  simulateXPGain_loop fuel gains initialXP [].

(** [getNextLevelXP(totalXP)], lines 198-201. *)
Definition getNextLevelXP (fuel : nat) (totalXP : float) : outcome float :=
  status <~ getXPStatus fuel totalXP defaultBarWidth ;;
  Normal (xpNeeded status).

(** [getPercentageComplete(totalXP)], lines 209-212. *)
Definition getPercentageComplete (fuel : nat) (totalXP : float)
  : outcome float :=
  status <~ getXPStatus fuel totalXP defaultBarWidth ;;
  Normal (Math_floor (mul (progressRatio status) (of_Z 100))).

End F64.

(** ** The range in which binary64 is exact *)

(** The largest level [l] with [9 * l * l <= 2 ^ 53]: up to this level every
    intermediate result of [F64.totalXPForLevel] is an integer that
    binary64 holds exactly. *)
Definition exact_level_bound : Z := 31635421.

(** The threshold of that level in the exact model. *)
Definition exact_xp_bound : Z := 4503594237558892.

(** A number that is at most [B]: a finite value up to [B], or [-0], or
    minus infinity. *)
Definition upto (B : Q) (x : F64.float) : Prop :=
  match x with
  | F64.Fin r => (r <= B)%Q
  | F64.NZero | F64.NInf => True
  | F64.PInf | F64.NaN => False
  end.

(** * Properties of the exact model *)

(** ** Thresholds *)

(** Parity of the numerators of the two upper pieces. *)
Lemma parity_square_plus (l : Z) : exists k, l * l + l = 2 * k.
Proof.
  destruct (Z.Even_or_Odd l) as [[m ->] | [m ->]].
  - exists (2 * m * m + m). ring.
  - exists (2 * m * m + 3 * m + 1). ring.
Qed.

Lemma totalXP_numerators_even (l : Z) :
  (5 * l * l - 81 * l + 720) mod 2 = 0 /\
  (9 * l * l - 325 * l + 4440) mod 2 = 0.
Proof.
  destruct (parity_square_plus l) as [k Hk]. split.
  - replace (5 * l * l - 81 * l + 720)
      with ((2 * l * l - 41 * l + 360 + k) * 2) by lia.
    apply Z.mod_mul. lia.
  - replace (9 * l * l - 325 * l + 4440)
      with ((4 * l * l - 163 * l + 2220 + k) * 2) by lia.
    apply Z.mod_mul. lia.
Qed.

(** Division-free views of the pieces, used by every proof that has to
    compute with the thresholds. *)
Lemma totalXP_mid (l : Z) :
  16 < l <= 31 -> 2 * totalXPForLevel l = 5 * l * l - 81 * l + 720.
Proof.
  intros H. unfold totalXPForLevel.
  destruct (Z.leb_spec l 0); [lia|].
  destruct (Z.leb_spec l 16); [lia|].
  destruct (Z.leb_spec l 31); [|lia].
  destruct (totalXP_numerators_even l) as [He _].
  pose proof (Z.div_mod (5 * l * l - 81 * l + 720) 2 ltac:(lia)). lia.
Qed.

Lemma totalXP_high (l : Z) :
  31 < l -> 2 * totalXPForLevel l = 9 * l * l - 325 * l + 4440.
Proof.
  intros H. unfold totalXPForLevel.
  destruct (Z.leb_spec l 0); [lia|].
  destruct (Z.leb_spec l 16); [lia|].
  destruct (Z.leb_spec l 31); [lia|].
  destruct (totalXP_numerators_even l) as [_ He].
  pose proof (Z.div_mod (9 * l * l - 325 * l + 4440) 2 ltac:(lia)). lia.
Qed.

Lemma totalXP_low (l : Z) :
  0 <= l <= 16 -> totalXPForLevel l = l * l + 6 * l.
Proof.
  intros H. unfold totalXPForLevel.
  destruct (Z.leb_spec l 0); [nia|].
  destruct (Z.leb_spec l 16); [reflexivity|lia].
Qed.

Lemma totalXP_nonpos (l : Z) : l <= 0 -> totalXPForLevel l = 0.
Proof.
  intros H. unfold totalXPForLevel.
  destruct (Z.leb_spec l 0); [reflexivity|lia].
Qed.

Lemma xpForNextLevel_low (l : Z) : 0 <= l < 16 -> xpForNextLevel l = 2 * l + 7.
Proof.
  intros H. unfold xpForNextLevel.
  destruct (Z.leb_spec 0 l), (Z.ltb_spec l 16); simpl; lia.
Qed.

Lemma xpForNextLevel_mid (l : Z) : 16 <= l < 31 -> xpForNextLevel l = 5 * l - 38.
Proof.
  intros H. unfold xpForNextLevel.
  destruct (Z.leb_spec 0 l), (Z.ltb_spec l 16); simpl; try lia.
  destruct (Z.leb_spec 16 l), (Z.ltb_spec l 31); simpl; lia.
Qed.

Lemma xpForNextLevel_high (l : Z) : 31 <= l -> xpForNextLevel l = 9 * l - 158.
Proof.
  intros H. unfold xpForNextLevel.
  destruct (Z.leb_spec 0 l), (Z.ltb_spec l 16); simpl; try lia.
  destruct (Z.leb_spec 16 l), (Z.ltb_spec l 31); simpl; lia.
Qed.

(** The step of the cumulative threshold, the common core of the consistency
    and monotonicity properties. *)
Lemma totalXP_step (l : Z) :
  0 <= l -> totalXPForLevel (l + 1) = totalXPForLevel l + xpForNextLevel l.
Proof.
  intros H.
  destruct (Z_lt_le_dec l 16) as [H16 | H16].
  - rewrite xpForNextLevel_low, !totalXP_low by lia. ring.
  - destruct (Z.eq_dec l 16) as [-> | Hne].
    + reflexivity.
    + destruct (Z_lt_le_dec l 31) as [H31 | H31].
      * pose proof (totalXP_mid l ltac:(lia)).
        pose proof (totalXP_mid (l + 1) ltac:(lia)).
        rewrite xpForNextLevel_mid by lia. nia.
      * destruct (Z.eq_dec l 31) as [-> | Hne'].
        -- reflexivity.
        -- pose proof (totalXP_high l ltac:(lia)).
           pose proof (totalXP_high (l + 1) ltac:(lia)).
           rewrite xpForNextLevel_high by lia. nia.
Qed.

Lemma xpForNextLevel_pos (l : Z) : 0 <= l -> 7 <= xpForNextLevel l.
Proof.
  intros H.
  destruct (Z_lt_le_dec l 16).
  - rewrite xpForNextLevel_low by lia. lia.
  - destruct (Z_lt_le_dec l 31).
    + rewrite xpForNextLevel_mid by lia. lia.
    + rewrite xpForNextLevel_high by lia. lia.
Qed.

Lemma totalXP_lt_succ (l : Z) : 0 <= l -> totalXPForLevel l < totalXPForLevel (l + 1).
Proof.
  intros H. rewrite totalXP_step by assumption.
  pose proof (xpForNextLevel_pos l H). lia.
Qed.

Lemma totalXP_mono (a b : Z) :
  0 <= a <= b -> totalXPForLevel a <= totalXPForLevel b.
Proof.
  intros [Ha Hab]. revert b Hab.
  apply (Zlt_lower_bound_ind (fun b => totalXPForLevel a <= totalXPForLevel b)).
  intros b IH Hab.
  destruct (Z.eq_dec a b) as [-> | Hne]; [lia|].
  specialize (IH (b - 1) ltac:(lia)).
  pose proof (totalXP_lt_succ (b - 1) ltac:(lia)) as Hs.
  replace (b - 1 + 1) with b in Hs by ring. lia.
Qed.

(** A threshold is at least seven times its level, so that the thresholds
    are unbounded. *)
Lemma totalXP_lower_bound (l : Z) : 0 <= l -> 7 * l <= totalXPForLevel l.
Proof.
  revert l.
  apply (Zlt_lower_bound_ind (fun l => 7 * l <= totalXPForLevel l)).
  intros l IH Hl.
  destruct (Z.eq_dec l 0) as [-> | Hne]; [reflexivity|].
  specialize (IH (l - 1) ltac:(lia)).
  pose proof (totalXP_step (l - 1) ltac:(lia)) as Hs.
  pose proof (xpForNextLevel_pos (l - 1) ltac:(lia)).
  replace (l - 1 + 1) with l in Hs by ring. lia.
Qed.

(** ** The search loop *)

Lemma getLevelFromXP_loop_eq (X l : Z) :
  getLevelFromXP_loop X l =
  if totalXPForLevel (l + 1) <=? X then getLevelFromXP_loop X (l + 1) else l.
Proof.
  rewrite getLevelFromXP_loop_equation_1.
  change (totalXPForLevel (l + 1) <=? X)
    with (proj1_sig (inspect (totalXPForLevel (l + 1) <=? X))) at 2.
  destruct (inspect (totalXPForLevel (l + 1) <=? X)) as [[] e]; reflexivity.
Qed.

(** A passed loop test puts the experience above the loop variable. *)
Lemma loop_test_bound (X l : Z) : totalXPForLevel (l + 1) <= X -> l < X.
Proof.
  intros H.
  destruct (Z_lt_le_dec l 0) as [Hneg | Hpos].
  - rewrite totalXP_nonpos in H by lia. lia.
  - pose proof (totalXP_lower_bound (l + 1) ltac:(lia)). lia.
Qed.

(** Loop invariant: below the level whose band holds [X] the loop goes on,
    at that level it stops. *)
Lemma getLevelFromXP_loop_spec (X L : Z) :
  totalXPForLevel L <= X < totalXPForLevel (L + 1) ->
  forall n l, 0 <= l -> L - l = Z.of_nat n -> getLevelFromXP_loop X l = L.
Proof.
  intros [Hlo Hhi] n.
  induction n as [| n IH]; intros l Hl Hd; rewrite getLevelFromXP_loop_eq.
  - assert (l = L) as -> by lia.
    destruct (Z.leb_spec (totalXPForLevel (L + 1)) X); [lia | reflexivity].
  - pose proof (totalXP_mono (l + 1) L ltac:(lia)).
    destruct (Z.leb_spec (totalXPForLevel (l + 1)) X); [|lia].
    apply IH; lia.
Qed.

(** ** Rounding and truncation *)

Section Rounding.
Local Open Scope Q_scope.

Lemma inject_Z_nonneg (z : Z) : (0 <= z)%Z -> 0 <= inject_Z z.
Proof. intros H. rewrite Zle_Qle in H. exact H. Qed.

Lemma inject_Z_pos (z : Z) : (0 < z)%Z -> 0 < inject_Z z.
Proof. intros H. rewrite Zlt_Qlt in H. exact H. Qed.

Lemma Qsign_pos (q : Q) : 0 < q -> Qsign q = Gt.
Proof. intros H. apply Qgt_alt. exact H. Qed.

Lemma Qsign_neg (q : Q) : q < 0 -> Qsign q = Lt.
Proof. intros H. apply Qlt_alt. exact H. Qed.

Lemma Qsign_zero (q : Q) : q == 0 -> Qsign q = Eq.
Proof. intros H. apply Qeq_alt. exact H. Qed.

Lemma Qtruncate_comp (x y : Q) : x == y -> Qtruncate x = Qtruncate y.
Proof.
  intros H. unfold Qtruncate.
  rewrite (Qfloor_comp x y H), (Qceiling_comp x y H).
  rewrite (Qleb_comp 0 0 (Qeq_refl 0) x y H). reflexivity.
Qed.

Lemma Qtruncate_inject_Z (z : Z) : Qtruncate (inject_Z z) = z.
Proof.
  unfold Qtruncate. rewrite Qfloor_Z, Qceiling_Z.
  destruct (Qle_bool 0 (inject_Z z)); reflexivity.
Qed.

Lemma round_half_up_comp (x y : Q) : x == y -> round_half_up x = round_half_up y.
Proof.
  intros H. unfold round_half_up. apply Qfloor_comp. rewrite H. reflexivity.
Qed.

Lemma round_half_up_inject_Z (z : Z) : round_half_up (inject_Z z) = z.
Proof.
  unfold round_half_up.
  apply Z.le_antisymm.
  - assert (Hlt : inject_Z (Qfloor (inject_Z z + (1 # 2))) < inject_Z (z + 1)).
    { apply Qle_lt_trans with (inject_Z z + (1 # 2)).
      - apply Qfloor_le.
      - rewrite inject_Z_plus. change (inject_Z 1) with 1. lra. }
    rewrite <- Zlt_Qlt in Hlt. lia.
  - rewrite <- (Qfloor_Z z) at 1. apply Qfloor_resp_le. lra.
Qed.

(** [Math.round] is a nearest integer, and the upper one at a tie. *)
Lemma round_half_up_bracket (q : Q) :
  inject_Z (round_half_up q) - (1 # 2) <= q /\
  q < inject_Z (round_half_up q) + (1 # 2).
Proof.
  unfold round_half_up.
  pose proof (Qfloor_le (q + (1 # 2))) as Hlo.
  pose proof (Qlt_floor (q + (1 # 2))) as Hhi.
  rewrite inject_Z_plus in Hhi. change (inject_Z 1) with 1 in Hhi.
  split; lra.
Qed.

Lemma round_half_up_mono (x y : Q) :
  x <= y -> (round_half_up x <= round_half_up y)%Z.
Proof.
  intros H. unfold round_half_up. apply Qfloor_resp_le. lra.
Qed.

Lemma round_half_up_range (q : Q) (w : Z) :
  0 <= q <= inject_Z w -> (0 <= round_half_up q <= w)%Z.
Proof.
  intros [Hlo Hhi]. split.
  - rewrite <- (round_half_up_inject_Z 0). apply round_half_up_mono. exact Hlo.
  - rewrite <- (round_half_up_inject_Z w).
    apply round_half_up_mono. exact Hhi.
Qed.

End Rounding.

(** ** Strings *)

Section Strings.
Local Open Scope string_scope.

Lemma length_append (s1 s2 : string) :
  String.length (s1 ++ s2) = (String.length s1 + String.length s2)%nat.
Proof.
  induction s1 as [| c s1 IH]; simpl; [reflexivity | rewrite IH; reflexivity].
Qed.

Lemma count_char_append (c : ascii) (s1 s2 : string) :
  count_char c (s1 ++ s2) = (count_char c s1 + count_char c s2)%nat.
Proof.
  induction s1 as [| c' s1 IH]; simpl; [reflexivity | rewrite IH; lia].
Qed.

Lemma length_repeat_char (c : ascii) (n : nat) :
  String.length (repeat_string (String c "") n) = n.
Proof.
  induction n as [| n IH]; simpl; [reflexivity | rewrite IH; reflexivity].
Qed.

Lemma count_char_repeat_same (c : ascii) (n : nat) :
  count_char c (repeat_string (String c "") n) = n.
Proof.
  induction n as [| n IH]; simpl; [reflexivity|].
  rewrite Ascii.eqb_refl, IH. reflexivity.
Qed.

Lemma count_char_repeat_other (c c' : ascii) (n : nat) :
  Ascii.eqb c c' = false ->
  count_char c (repeat_string (String c' "") n) = O.
Proof.
  intros H. induction n as [| n IH]; simpl; [reflexivity|].
  rewrite H, IH. reflexivity.
Qed.

Lemma String_repeat_of_Z (s : string) (n : Z) :
  (0 <= n)%Z ->
  String_repeat s (of_Z n) = Normal (repeat_string s (Z.to_nat n)).
Proof.
  intros H. unfold String_repeat, of_Z, ToIntegerOrInfinity.
  rewrite Qtruncate_inject_Z.
  destruct (Z.ltb_spec n 0); [lia | reflexivity].
Qed.

Lemma String_repeat_Fin (s : string) (q : Q) (n : Z) :
  (q == inject_Z n)%Q -> (0 <= n)%Z ->
  String_repeat s (Fin q) = Normal (repeat_string s (Z.to_nat n)).
Proof.
  intros Hq H. unfold String_repeat, ToIntegerOrInfinity.
  rewrite (Qtruncate_comp _ _ Hq), Qtruncate_inject_Z.
  destruct (Z.ltb_spec n 0); [lia | reflexivity].
Qed.

End Strings.

(** ** The progress bar on well-formed arguments *)

Section ProgressBar.
Local Open Scope Q_scope.

Variables (c t : Q) (w : Z).
Hypothesis Hc : 0 <= c.
Hypothesis Ht : 0 < t.
Hypothesis Hw : (0 <= w)%Z.

(** The value of [Math.min(current / total, 1)] for a positive [total]. *)
Lemma clamped_ratio :
  exists r, Math_min (js_div (Fin c) (Fin t)) (of_Z 1) = Fin r /\
            r == Qmin (c / t) 1.
Proof.
  unfold js_div. rewrite (Qsign_pos t Ht). unfold Math_min, of_Z.
  destruct (Qle_bool (c / t) (inject_Z 1)) eqn:E.
  - exists (c / t). split; [reflexivity|].
    apply Qle_bool_iff in E. symmetry. apply Q.min_l. exact E.
  - exists (inject_Z 1). split; [reflexivity|].
    symmetry. apply Q.min_r.
    destruct (Qlt_le_dec 1 (c / t)) as [H | H]; [apply Qlt_le_weak; exact H|].
    apply Qle_bool_iff in H. unfold inject_Z in E. congruence.
Qed.

Lemma clamped_ratio_range : 0 <= Qmin (c / t) 1 <= 1.
Proof.
  split.
  - apply Q.min_glb; [|lra].
    apply Qle_shift_div_l; [exact Ht | lra].
  - apply Q.le_min_r.
Qed.

(** Shape of the bar: [filled] markers, then [width - filled] empty cells,
    between the two brackets, where [filled] is the rounded share of the
    width. *)
Lemma renderProgressBar_shape :
  let filled := round_half_up (Qmin (c / t) 1 * inject_Z w) in
  (0 <= filled <= w)%Z /\
  renderProgressBar (Fin c) (Fin t) (of_Z w) =
  Normal ("[" ++ repeat_string "#" (Z.to_nat filled)
              ++ repeat_string "-" (Z.to_nat (w - filled)) ++ "]")%string.
Proof.
  intros filled.
  assert (Hrange : (0 <= filled <= w)%Z).
  { apply round_half_up_range.
    destruct clamped_ratio_range as [Hlo Hhi].
    pose proof (inject_Z_nonneg w Hw).
    split.
    - apply Qmult_le_0_compat; assumption.
    - rewrite <- (Qmult_1_l (inject_Z w)) at 2.
      apply Qmult_le_compat_r; assumption. }
  split; [exact Hrange|].
  unfold renderProgressBar. cbv zeta.
  destruct clamped_ratio as [r [-> Hr]].
  assert (Hf : Math_round (js_mul (Fin r) (of_Z w)) = of_Z filled).
  { unfold of_Z. cbn [js_mul Math_round]. unfold of_Z. do 2 f_equal.
    apply round_half_up_comp. rewrite Hr. reflexivity. }
  rewrite Hf.
  rewrite (String_repeat_of_Z "#" filled) by lia.
  unfold of_Z. cbn [js_sub bind].
  rewrite (String_repeat_Fin "-" _ (w - filled)%Z).
  - reflexivity.
  - unfold Zminus. rewrite inject_Z_plus, inject_Z_opp. reflexivity.
  - lia.
Qed.

End ProgressBar.

(** ** The level lookup on non-negative experience *)

Lemma getLevelFromXP_negative (X : Z) : X < 0 -> getLevelFromXP X = 0.
Proof.
  intros HX. unfold getLevelFromXP. rewrite getLevelFromXP_loop_eq.
  change (totalXPForLevel (0 + 1)) with 7.
  destruct (Z.leb_spec 7 X); [lia | reflexivity].
Qed.

(** Started at or below the band of [X], the loop ends in that band. *)
Lemma getLevelFromXP_loop_band (n : nat) :
  forall X l,
    (Z.to_nat (X - l) < n)%nat -> 0 <= l -> totalXPForLevel l <= X ->
    l <= getLevelFromXP_loop X l /\
    totalXPForLevel (getLevelFromXP_loop X l) <= X
      < totalXPForLevel (getLevelFromXP_loop X l + 1).
Proof.
  induction n as [| n IH]; intros X l Hn Hl HX; [lia|].
  rewrite getLevelFromXP_loop_eq.
  destruct (Z.leb_spec (totalXPForLevel (l + 1)) X) as [Hc | Hc].
  - pose proof (loop_test_bound X l Hc).
    destruct (IH X (l + 1)) as [H1 H2]; [lia | lia | exact Hc |].
    split; [lia | exact H2].
  - split; lia.
Qed.

Lemma getLevelFromXP_band (X : Z) :
  0 <= X ->
  0 <= getLevelFromXP X /\
  totalXPForLevel (getLevelFromXP X) <= X
    < totalXPForLevel (getLevelFromXP X + 1).
Proof.
  intros HX. unfold getLevelFromXP.
  apply (getLevelFromXP_loop_band (S (Z.to_nat (X - 0)))); [lia | lia |].
  rewrite totalXP_nonpos; lia.
Qed.

(** Inside a level the experience earned is below the cost of the level. *)
Lemma xpInLevel_range (X : Z) :
  0 <= X ->
  0 <= X - totalXPForLevel (getLevelFromXP X)
    < xpForNextLevel (getLevelFromXP X).
Proof.
  intros HX. destruct (getLevelFromXP_band X HX) as [HL [Hlo Hhi]].
  rewrite totalXP_step in Hhi by assumption. lia.
Qed.

(** ** The status snapshot *)

Section Status.
Local Open Scope Q_scope.

Lemma js_div_of_Z (a b : Z) :
  (0 < b)%Z -> js_div (of_Z a) (of_Z b) = Fin (inject_Z a / inject_Z b).
Proof.
  intros Hb. unfold js_div, of_Z.
  rewrite Qsign_pos; [reflexivity|]. apply inject_Z_pos. exact Hb.
Qed.

Lemma ratio_range (a b : Z) :
  (0 <= a < b)%Z -> 0 <= inject_Z a / inject_Z b < 1.
Proof.
  intros [Ha Hab].
  pose proof (inject_Z_nonneg a Ha).
  assert (inject_Z a < inject_Z b) by (rewrite Zlt_Qlt in Hab; exact Hab).
  assert (0 < inject_Z b) by lra.
  split.
  - apply Qle_shift_div_l; [assumption | lra].
  - apply Qlt_shift_div_r; [assumption | lra].
Qed.

(** On non-negative experience and a non-negative integer width the
    snapshot is returned, with every field as the source derives it. *)
Lemma getXPStatus_nonneg (X w : Z) :
  (0 <= X)%Z -> (0 <= w)%Z ->
  let L := getLevelFromXP X in
  exists bar : string,
    renderProgressBar (of_Z (X - totalXPForLevel L))
                      (of_Z (xpForNextLevel L)) (of_Z w) = Normal bar /\
    getXPStatus X (of_Z w) =
    Normal (mkXPStatus X L (totalXPForLevel L) (X - totalXPForLevel L)
              (xpForNextLevel L)
              (xpForNextLevel L - (X - totalXPForLevel L))
              (Fin (inject_Z (X - totalXPForLevel L)
                    / inject_Z (xpForNextLevel L)))
              bar).
Proof.
  intros HX Hw L.
  pose proof (xpInLevel_range X HX) as Hin. fold L in Hin.
  destruct (renderProgressBar_shape
              (inject_Z (X - totalXPForLevel L))
              (inject_Z (xpForNextLevel L)) w) as [_ Hbar].
  - apply inject_Z_nonneg. lia.
  - apply inject_Z_pos. lia.
  - exact Hw.
  - eexists. split; [exact Hbar|].
    unfold getXPStatus. fold L. cbv zeta.
    rewrite js_div_of_Z by lia.
    unfold of_Z in Hbar |- *. rewrite Hbar. reflexivity.
Qed.

Lemma getXPStatus_returns (X : Z) :
  (0 <= X)%Z -> exists s, getXPStatus X defaultBarWidth = Normal s.
Proof.
  intros HX.
  destruct (getXPStatus_nonneg X 20 HX ltac:(lia)) as [bar [_ Hs]].
  eexists. exact Hs.
Qed.

Lemma String_repeat_negative (s : string) (n : Z) :
  (n < 0)%Z -> String_repeat s (of_Z n) = Throw RangeError.
Proof.
  intros H. unfold String_repeat, of_Z, ToIntegerOrInfinity.
  rewrite Qtruncate_inject_Z.
  destruct (Z.ltb_spec n 0); [reflexivity | lia].
Qed.

(** On negative experience the default bar has a negative number of filled
    cells, and [String.prototype.repeat] raises. *)
Lemma getXPStatus_negative (X : Z) :
  (X < 0)%Z -> getXPStatus X defaultBarWidth = Throw RangeError.
Proof.
  intros HX. unfold getXPStatus. rewrite (getLevelFromXP_negative X HX).
  change (totalXPForLevel 0) with 0%Z. change (xpForNextLevel 0) with 7%Z.
  cbv zeta. unfold renderProgressBar. cbv zeta.
  rewrite js_div_of_Z by lia.
  assert (Hq : inject_Z (X - 0) <= -1).
  { change (-1) with (inject_Z (-1)). rewrite <- Zle_Qle. lia. }
  change (inject_Z 7) with 7.
  assert (Hmin : Math_min (Fin (inject_Z (X - 0) / 7)) (of_Z 1)
                 = Fin (inject_Z (X - 0) / 7)).
  { unfold Math_min, of_Z.
    assert (Hle : Qle_bool (inject_Z (X - 0) / 7) (inject_Z 1) = true).
    { apply Qle_bool_iff. change (inject_Z 1) with 1.
      apply Qle_shift_div_r; lra. }
    rewrite Hle. reflexivity. }
  rewrite Hmin. unfold defaultBarWidth, of_Z at 1. cbn [js_mul Math_round].
  rewrite String_repeat_negative; [reflexivity|].
  apply Z.le_lt_trans with (round_half_up (-20 # 7)); [|reflexivity].
  apply round_half_up_mono. change (inject_Z 20) with 20.
  assert (inject_Z (X - 0) / 7 <= -1 # 7).
  { apply Qle_shift_div_r; lra. }
  lra.
Qed.

End Status.

(** ** The simulation loop *)

Lemma sum_gains_cons (g : Z) (gains : list Z) :
  sum_gains (g :: gains) = g + sum_gains gains.
Proof. reflexivity. Qed.

(** With non-negative running totals the loop goes through all the gains
    and appends one snapshot per gain. *)
Lemma simulateXPGain_loop_returns (gains : list Z) :
  forall xp acc,
    (forall k, (k < List.length gains)%nat ->
               0 <= xp + sum_gains (firstn (S k) gains)) ->
    exists sts,
      simulateXPGain_loop gains xp acc =
        Normal (mkSimulation (xp + sum_gains gains) (acc ++ sts)) /\
      List.length sts = List.length gains /\
      forall k s,
        nth_error sts k = Some s ->
        getXPStatus (xp + sum_gains (firstn (S k) gains)) defaultBarWidth
        = Normal s.
Proof.
  induction gains as [| g gains IH]; intros xp acc Hpos.
  - exists []. cbn. rewrite app_nil_r, Z.add_0_r.
    split; [reflexivity | split; [reflexivity|]].
    intros [|k] s H; discriminate.
  - assert (H0 : 0 <= xp + g).
    { specialize (Hpos O ltac:(cbn; lia)). cbn in Hpos. lia. }
    destruct (getXPStatus_returns (xp + g) H0) as [s0 Hs].
    destruct (IH (xp + g) (acc ++ [s0]))
      as [sts [Hrun [Hlen Hnth]]].
    { intros k Hk. specialize (Hpos (S k) ltac:(cbn; lia)).
      rewrite firstn_cons, sum_gains_cons in Hpos. lia. }
    eexists (_ :: sts). split; [|split].
    + cbn [simulateXPGain_loop]. cbv zeta. rewrite Hs. cbn [bind].
      rewrite Hrun, <- app_assoc, sum_gains_cons, Z.add_assoc. reflexivity.
    + cbn. rewrite Hlen. reflexivity.
    + intros [|k] s H; cbn [nth_error] in H.
      * injection H as <-. rewrite <- Hs. f_equal. cbn. lia.
      * rewrite firstn_cons, sum_gains_cons, Z.add_assoc. apply Hnth, H.
Qed.

(** A negative running total stops the loop with the exception of
    [getXPStatus]. *)
Lemma simulateXPGain_loop_throws (gains : list Z) :
  forall xp acc k,
    (k < List.length gains)%nat ->
    xp + sum_gains (firstn (S k) gains) < 0 ->
    simulateXPGain_loop gains xp acc = Throw RangeError.
Proof.
  induction gains as [| g gains IH]; intros xp acc k Hk Hneg.
  - cbn in Hk. lia.
  - cbn [simulateXPGain_loop]. cbv zeta.
    destruct (Z_lt_le_dec (xp + g) 0) as [Hlt | Hge].
    + rewrite getXPStatus_negative by exact Hlt. reflexivity.
    + destruct (getXPStatus_returns (xp + g) Hge) as [s0 Hs].
      rewrite Hs. cbn [bind].
      destruct k as [| k].
      * cbn in Hneg. lia.
      * apply (IH _ _ k); [cbn in Hk; lia|].
        rewrite firstn_cons, sum_gains_cons in Hneg. lia.
Qed.

(** ** The two rounding rules *)

Lemma round_half_up_away_nonneg (q : Q) :
  (0 <= q)%Q -> round_half_up q = round_half_away_from_zero q.
Proof.
  intros Hq. unfold round_half_away_from_zero.
  assert (Hn : 0 <= Qnum q).
  { unfold Qle in Hq. cbn in Hq. lia. }
  destruct (Z.eq_dec (Qnum q) 0) as [H0 | Hne].
  - rewrite H0. cbn [Z.sgn]. rewrite Z.mul_0_l.
    rewrite (round_half_up_comp q 0); [reflexivity|].
    unfold Qeq. cbn. lia.
  - rewrite Z.sgn_pos by lia. rewrite Z.mul_1_l.
    unfold round_half_up. apply Qfloor_comp.
    rewrite (Qabs_pos q Hq). reflexivity.
Qed.

(** The hypothesis on the running totals cannot be dropped: a negative one
    makes the whole call raise. *)
Lemma simulateXPGain_throws_on_negative_total (X0 : Z) (gains : list Z) :
  (exists k, (1 <= k <= List.length gains)%nat /\
             X0 + sum_gains (firstn k gains) < 0) ->
  simulateXPGain X0 gains = Throw RangeError.
Proof.
  intros [k [Hk Hneg]]. unfold simulateXPGain.
  apply (simulateXPGain_loop_throws gains X0 [] (k - 1)); [lia|].
  replace (S (k - 1)) with k by lia. exact Hneg.
Qed.

(** ** Level-cost model *)

Lemma totalXP_nonneg (l : Z) : 0 <= totalXPForLevel l.
Proof.
  destruct (Z_lt_le_dec l 0).
  - rewrite totalXP_nonpos by lia. lia.
  - pose proof (totalXP_lower_bound l ltac:(lia)). lia.
Qed.

Lemma totalXP_mono_all (a b : Z) :
  a <= b -> totalXPForLevel a <= totalXPForLevel b.
Proof.
  intros H. destruct (Z_lt_le_dec a 0).
  - rewrite (totalXP_nonpos a) by lia. apply totalXP_nonneg.
  - apply totalXP_mono. lia.
Qed.

Lemma totalXP_lt (a b : Z) :
  0 <= a < b -> totalXPForLevel a < totalXPForLevel b.
Proof.
  intros H. pose proof (totalXP_lt_succ a ltac:(lia)).
  pose proof (totalXP_mono_all (a + 1) b ltac:(lia)). lia.
Qed.

(** ** Level lookup *)

Lemma getLevelFromXP_nonneg (X : Z) : 0 <= getLevelFromXP X.
Proof.
  destruct (Z_lt_le_dec X 0) as [H | H].
  - rewrite getLevelFromXP_negative by exact H. lia.
  - apply getLevelFromXP_band. exact H.
Qed.

Lemma getLevelFromXP_unique (X L : Z) :
  0 <= L -> totalXPForLevel L <= X < totalXPForLevel (L + 1) ->
  getLevelFromXP X = L.
Proof.
  intros HL HX. unfold getLevelFromXP.
  apply (getLevelFromXP_loop_spec X L HX (Z.to_nat L)); lia.
Qed.

Lemma getLevelFromXP_mono (X Y : Z) :
  X <= Y -> getLevelFromXP X <= getLevelFromXP Y.
Proof.
  intros HXY. destruct (Z_lt_le_dec X 0) as [HX | HX].
  - rewrite (getLevelFromXP_negative X HX). apply getLevelFromXP_nonneg.
  - destruct (getLevelFromXP_band X HX) as [HLX [HloX _]].
    destruct (getLevelFromXP_band Y ltac:(lia)) as [HLY [_ HhiY]].
    destruct (Z_le_gt_dec (getLevelFromXP X) (getLevelFromXP Y)) as [|Hgt];
      [assumption|].
    pose proof (totalXP_mono_all (getLevelFromXP Y + 1) (getLevelFromXP X)
                  ltac:(lia)).
    lia.
Qed.

(** ** The threshold table *)

Lemma levelThresholds_loop_eq (N l : Z) (acc : list Threshold.t) :
  levelThresholds_loop N l acc =
  if l <=? N
  then levelThresholds_loop N (l + 1)
         (acc ++ [Threshold.mk l (totalXPForLevel l)])
  else acc.
Proof.
  rewrite levelThresholds_loop_equation_1.
  change (l <=? N) with (proj1_sig (inspect (l <=? N))) at 2.
  destruct (inspect (l <=? N)) as [[] e]; reflexivity.
Qed.

(** What the loop appends: one entry per level from the counter up to the
    bound, in order. *)
Lemma levelThresholds_loop_spec (n : nat) :
  forall N l acc,
    Z.to_nat (N + 1 - l) = n ->
    levelThresholds_loop N l acc =
    acc ++ map (fun k => Threshold.mk (l + Z.of_nat k)
                           (totalXPForLevel (l + Z.of_nat k)))
               (seq 0 n).
Proof.
  induction n as [| n IH]; intros N l acc Hn;
    rewrite levelThresholds_loop_eq.
  - destruct (Z.leb_spec l N); [lia|]. cbn. rewrite app_nil_r. reflexivity.
  - destruct (Z.leb_spec l N); [|lia].
    rewrite (IH N (l + 1)) by lia. rewrite <- app_assoc. f_equal.
    cbn [seq map app]. rewrite Z.add_0_r. f_equal.
    rewrite <- seq_shift, map_map. apply map_ext. intros k.
    replace (l + 1 + Z.of_nat k) with (l + Z.of_nat (S k)) by lia.
    reflexivity.
Qed.

Lemma levelThresholds_closed (N : Z) :
  levelThresholds N =
  map (fun k => Threshold.mk (Z.of_nat k) (totalXPForLevel (Z.of_nat k)))
      (seq 0 (Z.to_nat (N + 1))).
Proof.
  unfold levelThresholds.
  rewrite (levelThresholds_loop_spec (Z.to_nat (N + 1)))
    by (f_equal; lia).
  reflexivity.
Qed.

Lemma levelThresholds_nth (N : Z) (i : nat) :
  nth_error (levelThresholds N) i =
  if (i <? Z.to_nat (N + 1))%nat
  then Some (Threshold.mk (Z.of_nat i) (totalXPForLevel (Z.of_nat i)))
  else None.
Proof.
  rewrite levelThresholds_closed, nth_error_map, nth_error_seq.
  destruct (i <? Z.to_nat (N + 1))%nat; reflexivity.
Qed.

(** ** The progress bar *)

Section BarProperties.
Local Open Scope Q_scope.

Lemma count_filled_cells (a b : nat) :
  count_char "#"
    ("[" ++ repeat_string "#" a ++ repeat_string "-" b ++ "]")%string = a.
Proof.
  cbn [append count_char]. rewrite !count_char_append.
  rewrite count_char_repeat_same, count_char_repeat_other by reflexivity.
  cbn. lia.
Qed.

Lemma String_repeat_Fin_negative (s : string) (q : Q) (n : Z) :
  q == inject_Z n -> (n < 0)%Z -> String_repeat s (Fin q) = Throw RangeError.
Proof.
  intros Hq H. unfold String_repeat, ToIntegerOrInfinity.
  rewrite (Qtruncate_comp _ _ Hq), Qtruncate_inject_Z.
  destruct (Z.ltb_spec n 0); [reflexivity | lia].
Qed.

Lemma ratio_ge_1 (c t : Q) : 0 < t -> t <= c -> Qmin (c / t) 1 == 1.
Proof.
  intros Ht Hc. apply Q.min_r. apply Qle_shift_div_l; [exact Ht | lra].
Qed.

Lemma ratio_mono (c1 c2 t : Q) : 0 < t -> c1 <= c2 -> c1 / t <= c2 / t.
Proof.
  intros Ht Hc. unfold Qdiv. apply Qmult_le_compat_r; [exact Hc|].
  apply Qinv_le_0_compat. lra.
Qed.

Lemma renderProgressBar_zero_current (c t : Q) (w : Z) :
  c == 0 -> 0 < t -> (0 <= w)%Z ->
  renderProgressBar (Fin c) (Fin t) (of_Z w) =
  Normal ("[" ++ repeat_string "-" (Z.to_nat w) ++ "]")%string.
Proof.
  intros Hc Ht Hw.
  destruct (renderProgressBar_shape c t w) as [_ ->];
    [lra | exact Ht | exact Hw |].
  rewrite (round_half_up_comp _ (inject_Z 0)).
  - rewrite round_half_up_inject_Z, Z.sub_0_r. reflexivity.
  - rewrite Hc. unfold Qdiv. rewrite Qmult_0_l.
    rewrite Q.min_l by lra. ring.
Qed.

(** With a finite ratio and a negative integer width one of the two
    [repeat] counts is negative. *)
Lemma negative_width_throws (r : Q) (w : Z) :
  (w < 0)%Z ->
  (filled <- String_repeat "#" (Math_round (js_mul (Fin r) (of_Z w))) ;;
   empty <- String_repeat "-"
              (js_sub (of_Z w) (Math_round (js_mul (Fin r) (of_Z w)))) ;;
   Normal ("[" ++ filled ++ empty ++ "]")%string) = Throw RangeError.
Proof.
  intros Hw. unfold of_Z at 1 3. cbn [js_mul Math_round].
  set (f := round_half_up (r * inject_Z w)).
  destruct (Z_lt_le_dec f 0) as [Hf | Hf].
  - rewrite String_repeat_negative by exact Hf. reflexivity.
  - rewrite String_repeat_of_Z by exact Hf. unfold of_Z. cbn [js_sub bind].
    rewrite (String_repeat_Fin_negative "-" _ (w - f)%Z); [reflexivity | | lia].
    unfold Zminus. rewrite inject_Z_plus, inject_Z_opp. reflexivity.
Qed.

End BarProperties.

(** ** The status snapshot and its two projections *)

Lemma getXPStatus_fields (X : Z) (barWidth : num) (st : XPStatus) :
  getXPStatus X barWidth = Normal st ->
  totalXP st = X /\ level st = getLevelFromXP X.
Proof.
  unfold getXPStatus.
  destruct (renderProgressBar _ _ barWidth) as [bar | e]; cbn [bind];
    [|discriminate].
  intros [= <-]. split; reflexivity.
Qed.

(** ** The simulation *)

(** The only exception of [getXPStatus] with the default width is the
    [RangeError] of the bar. *)
Lemma getXPStatus_exn (X : Z) (e : exn) :
  getXPStatus X defaultBarWidth = Throw e -> e = RangeError /\ X < 0.
Proof.
  intros H. destruct (Z_lt_le_dec X 0) as [HX | HX].
  - rewrite (getXPStatus_negative X HX) in H. injection H as <-.
    split; [reflexivity | exact HX].
  - destruct (getXPStatus_returns X HX) as [st Hst]. congruence.
Qed.

(** An exception of the loop comes from a negative running total. *)
Lemma simulateXPGain_loop_exn (gains : list Z) :
  forall xp acc e,
    simulateXPGain_loop gains xp acc = Throw e ->
    e = RangeError /\
    exists k, (k < List.length gains)%nat /\
              xp + sum_gains (firstn (S k) gains) < 0.
Proof.
  induction gains as [| g gains IH]; intros xp acc e H.
  - discriminate.
  - cbn [simulateXPGain_loop] in H. cbv zeta in H.
    destruct (getXPStatus (xp + g) defaultBarWidth) as [st | e'] eqn:Hst;
      cbn [bind] in H.
    + destruct (IH _ _ _ H) as [He [k [Hk Hneg]]].
      split; [exact He|]. exists (S k). split; [cbn; lia|].
      rewrite firstn_cons, sum_gains_cons. lia.
    + injection H as ->. destruct (getXPStatus_exn _ _ Hst) as [He HX].
      split; [exact He|]. exists O. split; [cbn; lia|]. cbn. lia.
Qed.

(** The snapshots already collected are a prefix of the result. *)
Lemma simulateXPGain_loop_acc (gains : list Z) :
  forall xp acc,
    simulateXPGain_loop gains xp acc =
    (r <- simulateXPGain_loop gains xp [] ;;
     Normal (mkSimulation (finalXP r) (acc ++ steps r))).
Proof.
  induction gains as [| g gains IH]; intros xp acc.
  - cbn. rewrite app_nil_r. reflexivity.
  - cbn [simulateXPGain_loop]. cbv zeta.
    destruct (getXPStatus (xp + g) defaultBarWidth) as [st | e]; cbn [bind];
      [|reflexivity].
    rewrite (IH (xp + g) (acc ++ [st])), (IH (xp + g) ([] ++ [st])).
    destruct (simulateXPGain_loop gains (xp + g) []) as [r | e]; cbn;
      [|reflexivity].
    rewrite <- app_assoc. reflexivity.
Qed.

Lemma simulateXPGain_loop_app (gains1 gains2 : list Z) :
  forall xp acc,
    simulateXPGain_loop (gains1 ++ gains2) xp acc =
    (r <- simulateXPGain_loop gains1 xp acc ;;
     simulateXPGain_loop gains2 (finalXP r) (steps r)).
Proof.
  induction gains1 as [| g gains1 IH]; intros xp acc.
  - reflexivity.
  - cbn [app simulateXPGain_loop]. cbv zeta.
    destruct (getXPStatus (xp + g) defaultBarWidth) as [st | e]; cbn [bind];
      [|reflexivity].
    apply IH.
Qed.

Lemma sum_firstn_mono (gains : list Z) :
  Forall (fun g => 0 <= g) gains ->
  forall i j, (i <= j)%nat ->
    0 <= sum_gains (firstn i gains) <= sum_gains (firstn j gains).
Proof.
  induction 1 as [| g gains Hg _ IH]; intros i j Hij.
  - rewrite !firstn_nil. cbn. lia.
  - destruct i as [| i], j as [| j]; try lia.
    + cbn. lia.
    + rewrite firstn_cons, sum_gains_cons.
      specialize (IH O j ltac:(lia)). cbn in IH |- *. lia.
    + rewrite !firstn_cons, !sum_gains_cons.
      specialize (IH i j ltac:(lia)). lia.
Qed.

(** ** Cost of the search *)

(** Below the level of [X] every loop test passes, at that level it
    fails. *)
Lemma loop_tests (X l : Z) :
  0 <= l <= getLevelFromXP X ->
  (totalXPForLevel (l + 1) <=? X) = (l <? getLevelFromXP X).
Proof.
  intros Hl.
  destruct (Z.ltb_spec l (getLevelFromXP X)) as [Hlt | Hge].
  - apply Z.leb_le.
    destruct (Z_lt_le_dec X 0) as [HX | HX].
    + rewrite getLevelFromXP_negative in Hlt by exact HX. lia.
    + destruct (getLevelFromXP_band X HX) as [_ [Hlo _]].
      pose proof (totalXP_mono_all (l + 1) (getLevelFromXP X) ltac:(lia)).
      lia.
  - assert (l = getLevelFromXP X) as -> by lia.
    apply Z.leb_gt.
    destruct (Z_lt_le_dec X 0) as [HX | HX].
    + rewrite getLevelFromXP_negative by exact HX.
      change (totalXPForLevel (0 + 1)) with 7. lia.
    + apply getLevelFromXP_band. exact HX.
Qed.

(** * Rounding to binary64 *)

Section Pow2.
Local Open Scope Q_scope.
Import F64.

Lemma two_neq_0 : ~ 2 == 0.
Proof. discriminate. Qed.

Lemma pow2_pos (k : Z) : 0 < pow2 k.
Proof. apply Qpower_0_lt. reflexivity. Qed.

Lemma pow2_neq_0 (k : Z) : ~ pow2 k == 0.
Proof. pose proof (pow2_pos k). lra. Qed.

Lemma pow2_add (a b : Z) : pow2 (a + b) == pow2 a * pow2 b.
Proof. apply Qpower_plus, two_neq_0. Qed.

Lemma pow2_opp (a : Z) : pow2 (- a) == / pow2 a.
Proof. apply Qpower_opp. Qed.

Lemma pow2_cancel (a : Z) : pow2 a * pow2 (- a) == 1.
Proof.
  rewrite <- pow2_add, Z.add_opp_diag_r. reflexivity.
Qed.

Lemma pow2_le (a b : Z) : (a <= b)%Z -> pow2 a <= pow2 b.
Proof. intros H. apply Qpower_le_compat_l; [exact H | discriminate]. Qed.

Lemma pow2_lt (a b : Z) : (a < b)%Z -> pow2 a < pow2 b.
Proof. intros H. apply Qpower_lt_compat_l; [exact H | reflexivity]. Qed.

Lemma pow2_lt_inv (a b : Z) : pow2 a < pow2 b -> (a < b)%Z.
Proof. intros H. apply (Qpower_lt_compat_l_inv 2); [exact H | reflexivity]. Qed.

Lemma pow2_le_inv (a b : Z) : pow2 a <= pow2 b -> (a <= b)%Z.
Proof. intros H. apply (Qpower_le_compat_l_inv 2); [exact H | reflexivity]. Qed.

Lemma pow2_Z (k : Z) : (0 <= k)%Z -> pow2 k == inject_Z (2 ^ k).
Proof. intros H. unfold pow2. rewrite Zpower_Qpower by exact H. reflexivity. Qed.

Lemma pow2_sub (a b : Z) : pow2 (a - b) == pow2 a / pow2 b.
Proof.
  unfold Z.sub. rewrite pow2_add, pow2_opp. reflexivity.
Qed.

End Pow2.

Section Mag.
Local Open Scope Q_scope.
Import F64.

Lemma Qabs_make (q : Q) :
  Qabs q == inject_Z (Z.abs (Qnum q)) / inject_Z (Zpos (Qden q)).
Proof.
  destruct q as [n d]. cbn [Qabs Qnum Qden]. apply Qmake_Qdiv.
Qed.

Lemma Qnum_neq_0 (q : Q) : ~ q == 0 -> (0 < Z.abs (Qnum q))%Z.
Proof.
  intros H. destruct q as [n d]. cbn [Qnum].
  assert (n <> 0%Z); [|lia].
  intros ->. apply H. reflexivity.
Qed.

(** The two candidates of [mag]. *)
Lemma mag_candidate (q : Q) :
  ~ q == 0 ->
  let e0 := (Z.log2 (Z.abs (Qnum q)) - Z.log2 (Zpos (Qden q)))%Z in
  pow2 (e0 - 1) <= Qabs q /\ Qabs q < pow2 (e0 + 1).
Proof.
  intros Hq e0.
  pose proof (Qnum_neq_0 q Hq) as Hn.
  set (n := Z.abs (Qnum q)) in *. set (d := Zpos (Qden q)) in *.
  assert (Hd : (0 < d)%Z) by reflexivity.
  destruct (Z.log2_spec n Hn) as [Hn1 Hn2].
  destruct (Z.log2_spec d Hd) as [Hd1 Hd2].
  pose proof (Z.log2_nonneg n) as Ha. pose proof (Z.log2_nonneg d) as Hb.
  set (a := Z.log2 n) in *. set (b := Z.log2 d) in *.
  assert (Hpa : (0 < 2 ^ a)%Z) by (apply Z.pow_pos_nonneg; lia).
  assert (Hpb : (0 < 2 ^ b)%Z) by (apply Z.pow_pos_nonneg; lia).
  rewrite Z.pow_succ_r in Hn2, Hd2 by lia.
  rewrite Qabs_make. fold n d.
  assert (Hdq : 0 < inject_Z d) by (apply inject_Z_pos; exact Hd).
  assert (Hpb1 : 0 < inject_Z (2 ^ (b + 1)))
    by (apply inject_Z_pos; apply Z.pow_pos_nonneg; lia).
  assert (Hpbq : 0 < inject_Z (2 ^ b)) by (apply inject_Z_pos; exact Hpb).
  split.
  - apply Qle_shift_div_l; [exact Hdq|].
    replace (e0 - 1)%Z with (a - (b + 1))%Z by (unfold e0; lia).
    rewrite pow2_sub, !pow2_Z by lia.
    setoid_replace (inject_Z (2 ^ a) / inject_Z (2 ^ (b + 1)) * inject_Z d)
      with (inject_Z (2 ^ a) * inject_Z d / inject_Z (2 ^ (b + 1)))
      by (field; lra).
    apply Qle_shift_div_r; [exact Hpb1|].
    rewrite <- !inject_Z_mult, <- Zle_Qle.
    rewrite Z.pow_add_r, Z.pow_1_r by lia. nia.
  - apply Qlt_shift_div_r; [exact Hdq|].
    replace (e0 + 1)%Z with (a + 1 - b)%Z by (unfold e0; lia).
    rewrite pow2_sub, !pow2_Z by lia.
    setoid_replace (inject_Z (2 ^ (a + 1)) / inject_Z (2 ^ b) * inject_Z d)
      with (inject_Z (2 ^ (a + 1)) * inject_Z d / inject_Z (2 ^ b))
      by (field; lra).
    apply Qlt_shift_div_l; [exact Hpbq|].
    rewrite <- !inject_Z_mult, <- Zlt_Qlt.
    rewrite Z.pow_add_r, Z.pow_1_r by lia. nia.
Qed.

Lemma mag_spec (q : Q) :
  ~ q == 0 -> pow2 (mag q) <= Qabs q /\ Qabs q < pow2 (mag q + 1).
Proof.
  intros Hq. destruct (mag_candidate q Hq) as [Hlo Hhi]. unfold mag.
  set (e0 := (Z.log2 (Z.abs (Qnum q)) - Z.log2 (Zpos (Qden q)))%Z) in *.
  destruct (Qle_bool (pow2 e0) (Qabs q)) eqn:E.
  - apply Qle_bool_iff in E. split; assumption.
  - split; [exact Hlo|].
    replace (e0 - 1 + 1)%Z with e0 by lia.
    destruct (Qlt_le_dec (Qabs q) (pow2 e0)) as [H | H]; [exact H|].
    apply Qle_bool_iff in H. congruence.
Qed.

Lemma mag_unique (q : Q) (e : Z) :
  pow2 e <= Qabs q -> Qabs q < pow2 (e + 1) -> mag q = e.
Proof.
  intros Hlo Hhi.
  assert (Hq : ~ q == 0).
  { intros H. rewrite H in Hlo. pose proof (pow2_pos e).
    change (Qabs 0) with 0 in Hlo. lra. }
  destruct (mag_spec q Hq) as [Mlo Mhi].
  assert (mag q < e + 1)%Z
    by (apply pow2_lt_inv; eapply Qle_lt_trans; eassumption).
  assert (e < mag q + 1)%Z
    by (apply pow2_lt_inv; eapply Qle_lt_trans; eassumption).
  lia.
Qed.

Lemma mag_comp (q q' : Q) : ~ q == 0 -> q == q' -> mag q = mag q'.
Proof.
  intros Hq Heq. symmetry.
  destruct (mag_spec q Hq) as [Mlo Mhi].
  apply mag_unique; rewrite <- Heq; assumption.
Qed.

Lemma mag_opp (q : Q) : ~ q == 0 -> mag (- q) = mag q.
Proof.
  intros Hq. destruct (mag_spec q Hq) as [Mlo Mhi].
  apply mag_unique; rewrite Qabs_opp; assumption.
Qed.

Lemma mag_le (q q' : Q) :
  ~ q == 0 -> Qabs q <= Qabs q' -> (mag q <= mag q')%Z.
Proof.
  intros Hq Hle.
  assert (Hq' : ~ q' == 0).
  { intros H. rewrite H in Hle. change (Qabs 0) with 0 in Hle.
    apply Hq. apply Qabs_Qle_condition in Hle. lra. }
  destruct (mag_spec q Hq) as [Mlo _].
  destruct (mag_spec q' Hq') as [_ Mhi'].
  assert (mag q < mag q' + 1)%Z; [|lia].
  apply pow2_lt_inv. lra.
Qed.

Lemma mag_lt_bound (q : Q) (k : Z) :
  ~ q == 0 -> Qabs q < pow2 k -> (mag q < k)%Z.
Proof.
  intros Hq H. destruct (mag_spec q Hq) as [Mlo _].
  apply pow2_lt_inv. lra.
Qed.

Lemma mag_ge_bound (q : Q) (k : Z) :
  pow2 k <= Qabs q -> (k <= mag q)%Z.
Proof.
  intros H.
  assert (Hq : ~ q == 0).
  { intros E. rewrite E in H. change (Qabs 0) with 0 in H.
    pose proof (pow2_pos k). lra. }
  destruct (mag_spec q Hq) as [_ Mhi].
  assert (k < mag q + 1)%Z; [|lia]. apply pow2_lt_inv. lra.
Qed.

End Mag.

Section Rne.
Local Open Scope Q_scope.
Import F64.

Lemma rne_comp (x y : Q) : x == y -> rne x = rne y.
Proof.
  intros H. unfold rne. rewrite (Qfloor_comp x y H).
  assert (Hc : (x - inject_Z (Qfloor y) ?= 1 # 2)
               = (y - inject_Z (Qfloor y) ?= 1 # 2))
    by (rewrite H; reflexivity).
  rewrite Hc. reflexivity.
Qed.

Lemma floor_bounds (x : Q) :
  inject_Z (Qfloor x) <= x /\ x < inject_Z (Qfloor x) + 1.
Proof.
  split; [apply Qfloor_le|].
  pose proof (Qlt_floor x) as H. rewrite inject_Z_plus in H.
  change (inject_Z 1) with 1 in H. exact H.
Qed.

Lemma inject_Z_succ (z : Z) : inject_Z (z + 1) == inject_Z z + 1.
Proof. rewrite inject_Z_plus. reflexivity. Qed.

(** [rne x] is a nearest integer of [x], the even one at a tie. *)
Lemma rne_spec (x : Q) :
  Qabs (x - inject_Z (rne x)) < 1 # 2 \/
  (Qabs (x - inject_Z (rne x)) == 1 # 2 /\ Z.even (rne x) = true).
Proof.
  unfold rne. destruct (floor_bounds x) as [Hlo Hhi].
  set (f := Qfloor x) in *.
  destruct (Qcompare_spec (x - inject_Z f) (1 # 2)) as [E | L | G].
  - destruct (Z.even f) eqn:Ev.
    + right. split; [|exact Ev]. rewrite E. reflexivity.
    + right. split.
      * rewrite inject_Z_succ.
        setoid_replace (x - (inject_Z f + 1)) with (- (1 # 2)) by lra.
        reflexivity.
      * rewrite Z.even_add, Ev. reflexivity.
  - left. apply Qabs_Qlt_condition. lra.
  - left. rewrite inject_Z_succ. apply Qabs_Qlt_condition. lra.
Qed.

Lemma rne_unique (x : Q) (r : Z) :
  Qabs (x - inject_Z r) < 1 # 2 \/
  (Qabs (x - inject_Z r) == 1 # 2 /\ Z.even r = true) ->
  rne x = r.
Proof.
  intros Hr. unfold rne. destruct (floor_bounds x) as [Hlo Hhi].
  set (f := Qfloor x) in *.
  assert (Hle : Qabs (x - inject_Z r) <= 1 # 2).
  { destruct Hr as [H | [H _]]; [lra | rewrite H; lra]. }
  apply Qabs_Qle_condition in Hle.
  assert (Hrf : r = f \/ r = (f + 1)%Z).
  { assert (inject_Z r < inject_Z (f + 2)).
    { rewrite inject_Z_plus. change (inject_Z 2) with 2. lra. }
    assert (inject_Z (f + -1) < inject_Z r).
    { rewrite inject_Z_plus. change (inject_Z (-1)) with (-1 # 1). lra. }
    rewrite <- Zlt_Qlt in *. lia. }
  destruct (Qcompare_spec (x - inject_Z f) (1 # 2)) as [E | L | G].
  - destruct Hr as [H | [H Ev]].
    + exfalso. apply Qabs_Qlt_condition in H.
      destruct Hrf as [-> | ->]; [lra|].
      rewrite inject_Z_succ in H. lra.
    + destruct Hrf as [-> | ->].
      * rewrite Ev. reflexivity.
      * rewrite Z.even_add in Ev. destruct (Z.even f); [discriminate|].
        reflexivity.
  - destruct Hrf as [-> | ->]; [reflexivity|]. exfalso.
    rewrite inject_Z_succ in Hle. lra.
  - destruct Hrf as [-> | ->]; [|reflexivity]. exfalso. lra.
Qed.

Lemma rne_Z (z : Z) : rne (inject_Z z) = z.
Proof.
  apply rne_unique. left.
  setoid_replace (inject_Z z - inject_Z z) with 0 by ring. reflexivity.
Qed.

Lemma rne_opp (x : Q) : rne (- x) = (- rne x)%Z.
Proof.
  apply rne_unique.
  assert (E : - x - inject_Z (- rne x) == - (x - inject_Z (rne x)))
    by (rewrite inject_Z_opp; ring).
  rewrite E, Qabs_opp, Z.even_opp. apply rne_spec.
Qed.

Lemma rne_err (x : Q) : Qabs (x - inject_Z (rne x)) <= 1 # 2.
Proof.
  destruct (rne_spec x) as [H | [H _]]; [lra | rewrite H; lra].
Qed.

Lemma rne_le_Z (x : Q) (n : Z) : x <= inject_Z n -> (rne x <= n)%Z.
Proof.
  intros H. pose proof (rne_err x) as He.
  apply Qabs_Qle_condition in He.
  destruct (Z_le_gt_dec (rne x) n) as [|Hgt]; [assumption|exfalso].
  assert (Hn : inject_Z (n + 1) <= inject_Z (rne x))
    by (rewrite <- Zle_Qle; lia).
  rewrite inject_Z_succ in Hn.
  assert (Hx : x == inject_Z n) by lra.
  rewrite (rne_comp _ _ Hx), rne_Z in Hgt. lia.
Qed.

Lemma rne_ge_Z (x : Q) (n : Z) : inject_Z n <= x -> (n <= rne x)%Z.
Proof.
  intros H. apply Z.opp_le_mono. rewrite <- rne_opp.
  apply rne_le_Z. rewrite inject_Z_opp. lra.
Qed.

Lemma rne_mono (x y : Q) : x <= y -> (rne x <= rne y)%Z.
Proof.
  intros H.
  destruct (Z_le_gt_dec (rne x) (rne y)) as [|Hgt]; [assumption|exfalso].
  pose proof (rne_err x) as Hx. pose proof (rne_err y) as Hy.
  apply Qabs_Qle_condition in Hx, Hy.
  assert (Hn : inject_Z (rne y + 1) <= inject_Z (rne x))
    by (rewrite <- Zle_Qle; lia).
  rewrite inject_Z_succ in Hn.
  (* both are ties around the same half-integer *)
  assert (Ex : x - inject_Z (rne x) == - (1 # 2)) by lra.
  assert (Ey : y - inject_Z (rne y) == 1 # 2) by lra.
  assert (Exy : inject_Z (rne x) == inject_Z (rne y) + 1) by lra.
  assert (Er : rne x = (rne y + 1)%Z).
  { rewrite <- inject_Z_succ in Exy. apply inject_Z_injective. exact Exy. }
  destruct (rne_spec x) as [Hs | [_ Evx]];
    [rewrite Ex in Hs; discriminate Hs|].
  destruct (rne_spec y) as [Hs | [_ Evy]];
    [rewrite Ey in Hs; discriminate Hs|].
  rewrite Er, Z.even_add, Evy in Evx. discriminate.
Qed.

End Rne.

Section RoundValue.
Local Open Scope Q_scope.
Import F64.

Lemma Qeq_bool_false (x y : Q) : ~ x == y -> Qeq_bool x y = false.
Proof.
  intros H. destruct (Qeq_bool x y) eqn:E; [|reflexivity].
  exfalso. apply H. apply Qeq_bool_eq. exact E.
Qed.

Lemma Qeq_bool_true (x y : Q) : x == y -> Qeq_bool x y = true.
Proof. apply Qeq_bool_iff. Qed.

Lemma Qle_bool_false (x y : Q) : y < x -> Qle_bool x y = false.
Proof.
  intros H. destruct (Qle_bool x y) eqn:E; [|reflexivity].
  apply Qle_bool_iff in E. lra.
Qed.

Lemma Qle_bool_true (x y : Q) : x <= y -> Qle_bool x y = true.
Proof. apply Qle_bool_iff. Qed.

Lemma Qred_inject_Z (z : Z) : Qred (inject_Z z) = inject_Z z.
Proof.
  unfold Qred, inject_Z.
  pose proof (Z.ggcd_gcd z 1) as Hg. pose proof (Z.ggcd_correct_divisors z 1) as Hd.
  destruct (Z.ggcd z 1) as [g [a b]]. cbn [fst snd] in *.
  rewrite Z.gcd_1_r in Hg. subst g. destruct Hd as [Ha Hb].
  rewrite Z.mul_1_l in Ha, Hb. subst a b. reflexivity.
Qed.

Lemma fexp_comp (q q' : Q) : ~ q == 0 -> q == q' -> fexp q = fexp q'.
Proof. intros Hq H. unfold fexp. rewrite (mag_comp q q' Hq H). reflexivity. Qed.

Lemma fexp_opp (q : Q) : ~ q == 0 -> fexp (- q) = fexp q.
Proof. intros Hq. unfold fexp. rewrite (mag_opp q Hq). reflexivity. Qed.

Lemma fexp_le (q q' : Q) :
  ~ q == 0 -> Qabs q <= Qabs q' -> (fexp q <= fexp q')%Z.
Proof.
  intros Hq H. unfold fexp. pose proof (mag_le q q' Hq H). lia.
Qed.

Lemma round_value_comp (q q' : Q) :
  ~ q == 0 -> q == q' -> round_value q == round_value q'.
Proof.
  intros Hq H. unfold round_value. rewrite <- (fexp_comp q q' Hq H).
  rewrite (rne_comp (q * pow2 (- fexp q)) (q' * pow2 (- fexp q)))
    by (apply Qmult_comp; [exact H | reflexivity]).
  reflexivity.
Qed.

Lemma round_value_opp (q : Q) :
  ~ q == 0 -> round_value (- q) == - round_value q.
Proof.
  intros Hq. unfold round_value. rewrite (fexp_opp q Hq).
  rewrite (rne_comp (- q * pow2 (- fexp q)) (- (q * pow2 (- fexp q))))
    by ring.
  rewrite rne_opp, inject_Z_opp. ring.
Qed.

Lemma unscale (q : Q) (e : Z) : q * pow2 (- e) * pow2 e == q.
Proof.
  rewrite <- Qmult_assoc, (Qmult_comm (pow2 (- e))), pow2_cancel. ring.
Qed.

(** A value is representable exactly when it is an integer number of units
    in its last place. *)
Lemma representable_intro (q : Q) (m : Z) :
  q == inject_Z m * pow2 (fexp q) -> representable q.
Proof.
  intros H. unfold representable, round_value.
  assert (E : q * pow2 (- fexp q) == inject_Z m).
  { rewrite H at 1. rewrite <- Qmult_assoc, pow2_cancel. ring. }
  rewrite (rne_comp _ _ E), rne_Z. symmetry. exact H.
Qed.

Lemma representable_elim (q : Q) :
  representable q ->
  q == inject_Z (rne (q * pow2 (- fexp q))) * pow2 (fexp q).
Proof. intros H. symmetry. exact H. Qed.

Lemma representable_0 : representable 0.
Proof. reflexivity. Qed.

Lemma round_value_0 (q : Q) : q == 0 -> round_value q == 0.
Proof.
  intros E. unfold round_value.
  assert (E0 : q * pow2 (- fexp q) == inject_Z 0).
  { transitivity (0 * pow2 (- fexp q)).
    - apply Qmult_comp; [exact E | reflexivity].
    - change (inject_Z 0) with 0. ring. }
  rewrite (rne_comp _ _ E0), rne_Z. change (inject_Z 0) with 0. ring.
Qed.

Lemma representable_opp (q : Q) : representable q -> representable (- q).
Proof.
  intros H. unfold representable in *. destruct (Qeq_dec q 0) as [E | Hq].
  - assert (E' : - q == 0) by lra.
    transitivity 0; [apply round_value_0; exact E' | symmetry; exact E'].
  - transitivity (- round_value q); [apply round_value_opp; exact Hq|].
    apply Qopp_comp. exact H.
Qed.

Lemma round_value_nonneg (q : Q) : 0 <= q -> 0 <= round_value q.
Proof.
  intros H. unfold round_value. apply Qmult_le_0_compat.
  - change 0 with (inject_Z 0). rewrite <- Zle_Qle. apply rne_ge_Z.
    change (inject_Z 0) with 0. apply Qmult_le_0_compat; [exact H|].
    apply Qlt_le_weak, pow2_pos.
  - apply Qlt_le_weak, pow2_pos.
Qed.

Lemma round_value_nonpos (q : Q) : q <= 0 -> round_value q <= 0.
Proof.
  intros H. unfold round_value.
  assert (Hr : inject_Z (rne (q * pow2 (- fexp q))) <= 0).
  { change 0 with (inject_Z 0). rewrite <- Zle_Qle. apply rne_le_Z.
    change (inject_Z 0) with 0. pose proof (pow2_pos (- fexp q)). nra. }
  pose proof (pow2_pos (fexp q)). nra.
Qed.

(** Rounding does not cross a representable value above. *)
Lemma round_value_le (q B : Q) :
  0 < q -> q <= B -> representable B -> round_value q <= B.
Proof.
  intros Hq HB Hrep.
  assert (Hq0 : ~ q == 0) by lra.
  assert (Hle : (fexp q <= fexp B)%Z).
  { apply fexp_le; [exact Hq0|]. rewrite !Qabs_pos by lra. exact HB. }
  apply representable_elim in Hrep.
  set (mB := rne (B * pow2 (- fexp B))) in *.
  set (eq := fexp q) in *. set (eB := fexp B) in *.
  assert (HBn : B * pow2 (- eq) == inject_Z (mB * 2 ^ (eB - eq))).
  { rewrite Hrep at 1. rewrite inject_Z_mult, <- pow2_Z by lia.
    rewrite pow2_sub, pow2_opp. field. apply pow2_neq_0. }
  unfold round_value. fold eq.
  assert (Hm : (rne (q * pow2 (- eq)) <= mB * 2 ^ (eB - eq))%Z).
  { apply rne_le_Z. rewrite <- HBn.
    apply Qmult_le_compat_r; [exact HB|]. apply Qlt_le_weak, pow2_pos. }
  rewrite Zle_Qle in Hm.
  setoid_replace B with (B * pow2 (- eq) * pow2 eq) by (symmetry; apply unscale).
  rewrite HBn. apply Qmult_le_compat_r; [exact Hm|].
  apply Qlt_le_weak, pow2_pos.
Qed.

(** Rounding does not cross a representable value below. *)
Lemma round_value_ge (q B : Q) :
  0 < B -> B <= q -> representable B -> B <= round_value q.
Proof.
  intros HB Hq Hrep.
  assert (HB0 : ~ B == 0) by lra.
  assert (Hq0 : ~ q == 0) by lra.
  assert (Hle : (fexp B <= fexp q)%Z).
  { apply fexp_le; [exact HB0|]. rewrite !Qabs_pos by lra. exact Hq. }
  apply representable_elim in Hrep.
  set (mB := rne (B * pow2 (- fexp B))) in *.
  set (eB := fexp B) in *.
  assert (HBs : B * pow2 (- eB) == inject_Z mB).
  { rewrite Hrep at 1. rewrite <- Qmult_assoc, pow2_cancel. ring. }
  unfold round_value.
  destruct (Z.eq_dec eB (fexp q)) as [He | Hne].
  - rewrite <- He.
    assert (Hm : (mB <= rne (q * pow2 (- eB)))%Z).
    { apply rne_ge_Z. rewrite <- HBs.
      apply Qmult_le_compat_r; [exact Hq|]. apply Qlt_le_weak, pow2_pos. }
    rewrite Zle_Qle in Hm. rewrite Hrep at 1.
    apply Qmult_le_compat_r; [exact Hm|]. apply Qlt_le_weak, pow2_pos.
  - assert (Hlt : (eB < fexp q)%Z) by lia.
    assert (Hmag : (mag B < mag q)%Z) by (unfold eB, fexp in Hlt; lia).
    assert (Hfq : fexp q = (mag q - 52)%Z) by (unfold eB, fexp in *; lia).
    destruct (mag_spec B HB0) as [_ MB]. destruct (mag_spec q Hq0) as [Mq _].
    rewrite Qabs_pos in MB, Mq by lra.
    assert (HBq : B <= pow2 (mag q)).
    { apply Qlt_le_weak. eapply Qlt_le_trans; [exact MB|].
      apply pow2_le. lia. }
    eapply Qle_trans; [exact HBq|].
    assert (Hm : (2 ^ 52 <= rne (q * pow2 (- fexp q)))%Z).
    { apply rne_ge_Z. rewrite <- pow2_Z by lia.
      replace 52%Z with (mag q + - fexp q)%Z by lia.
      rewrite pow2_add.
      apply Qmult_le_compat_r; [exact Mq|]. apply Qlt_le_weak, pow2_pos. }
    rewrite Zle_Qle in Hm. rewrite <- pow2_Z in Hm by lia.
    replace (mag q) with (52 + fexp q)%Z at 1 by lia.
    rewrite pow2_add.
    apply Qmult_le_compat_r; [exact Hm|]. apply Qlt_le_weak, pow2_pos.
Qed.

End RoundValue.

Section Rnd.
Local Open Scope Q_scope.
Import F64.

Lemma representable_comp (q q' : Q) :
  q == q' -> representable q -> representable q'.
Proof.
  intros E H. unfold representable in *.
  destruct (Qeq_dec q 0) as [E0 | Hq].
  - assert (E0' : q' == 0) by (rewrite <- E; exact E0).
    transitivity 0; [apply round_value_0; exact E0' | symmetry; exact E0'].
  - transitivity (round_value q).
    + symmetry. apply round_value_comp; assumption.
    + transitivity q; assumption.
Qed.

Lemma is_representable_true (q : Q) :
  is_representable q = true -> representable q.
Proof. apply Qeq_bool_eq. Qed.

(** Every integer of magnitude at most [2 ^ 53] is a binary64 value. *)
Lemma int_representable_pos (z : Z) :
  (0 < z <= 2 ^ 53)%Z -> representable (inject_Z z).
Proof.
  intros [Hz Hb]. destruct (Z.eq_dec z (2 ^ 53)) as [-> | Hne].
  - apply is_representable_true. vm_compute. reflexivity.
  - set (q := inject_Z z).
    assert (Hq : 0 < q) by (apply inject_Z_pos; exact Hz).
    assert (Hq0 : ~ q == 0) by lra.
    assert (Hlo : (0 <= mag q)%Z).
    { apply mag_ge_bound. rewrite Qabs_pos by lra.
      change (pow2 0) with (inject_Z 1). unfold q. rewrite <- Zle_Qle. lia. }
    assert (Hhi : (mag q < 53)%Z).
    { apply mag_lt_bound; [exact Hq0|]. rewrite Qabs_pos by lra.
      rewrite pow2_Z by lia. unfold q. rewrite <- Zlt_Qlt. lia. }
    assert (He : fexp q = (mag q - 52)%Z) by (unfold fexp; lia).
    apply (representable_intro q (z * 2 ^ (- fexp q))).
    rewrite inject_Z_mult, <- pow2_Z by lia. fold q.
    symmetry. apply unscale.
Qed.

Lemma int_representable (z : Z) :
  (Z.abs z <= 2 ^ 53)%Z -> representable (inject_Z z).
Proof.
  intros H. destruct (Z.lt_trichotomy z 0) as [Hn | [-> | Hp]].
  - replace (inject_Z z) with (- inject_Z (- z)).
    + apply representable_opp, int_representable_pos. lia.
    + unfold Qopp, inject_Z. cbn. rewrite Z.opp_involutive. reflexivity.
  - apply representable_0.
  - apply int_representable_pos. lia.
Qed.

Lemma neg_comp (q q' : Q) : q == q' -> neg q = neg q'.
Proof.
  intros E. unfold neg. rewrite (Qleb_comp 0 0 (Qeq_refl 0) q q' E).
  reflexivity.
Qed.

Lemma neg_true (q : Q) : q < 0 -> neg q = true.
Proof. intros H. unfold neg. rewrite Qle_bool_false by exact H. reflexivity. Qed.

Lemma neg_false (q : Q) : 0 <= q -> neg q = false.
Proof. intros H. unfold neg. rewrite Qle_bool_true by exact H. reflexivity. Qed.

Lemma rnd_comp (s : bool) (q q' : Q) : q == q' -> rnd s q = rnd s q'.
Proof.
  intros E. unfold rnd.
  destruct (Qeq_dec q 0) as [E0 | Hq].
  - rewrite (Qeq_bool_true q 0 E0).
    rewrite (Qeq_bool_true q' 0) by (rewrite <- E; exact E0). reflexivity.
  - rewrite (Qeq_bool_false q 0 Hq).
    rewrite (Qeq_bool_false q' 0) by (rewrite <- E; exact Hq).
    pose proof (round_value_comp q q' Hq E) as Er.
    rewrite (neg_comp q q' E).
    destruct (Qeq_dec (round_value q) 0) as [R0 | Rn].
    + rewrite (Qeq_bool_true _ 0 R0).
      rewrite (Qeq_bool_true (round_value q') 0) by (rewrite <- Er; exact R0).
      reflexivity.
    + rewrite (Qeq_bool_false _ 0 Rn).
      rewrite (Qeq_bool_false (round_value q') 0) by (rewrite <- Er; exact Rn).
      rewrite (Qleb_comp _ _ (Qeq_refl (pow2 1024)) _ _
                 (Qabs_wd _ _ Er)).
      rewrite (Qred_complete _ _ Er). reflexivity.
Qed.

Lemma rnd_zero (s : bool) (q : Q) : q == 0 -> rnd s q = zero s.
Proof. intros E. unfold rnd. rewrite (Qeq_bool_true q 0 E). reflexivity. Qed.

(** Away from zero and overflow, [rnd] is [round_value]. *)
Lemma rnd_finite (s : bool) (q : Q) :
  ~ round_value q == 0 -> Qabs (round_value q) < pow2 1024 ->
  rnd s q = Fin (Qred (round_value q)).
Proof.
  intros Hr Hb. unfold rnd.
  assert (Hq : ~ q == 0).
  { intros E. apply Hr. apply round_value_0. exact E. }
  rewrite (Qeq_bool_false q 0 Hq), (Qeq_bool_false _ 0 Hr).
  rewrite Qle_bool_false by exact Hb. reflexivity.
Qed.

(** A representable value is left as it is. *)
Lemma rnd_representable (s : bool) (q : Q) :
  ~ q == 0 -> representable q -> Qabs q < pow2 1024 ->
  rnd s q = Fin (Qred q).
Proof.
  intros Hq Hrep Hb. unfold representable in Hrep.
  rewrite rnd_finite.
  - rewrite (Qred_complete _ _ Hrep). reflexivity.
  - rewrite Hrep. exact Hq.
  - rewrite Hrep. exact Hb.
Qed.

Lemma pow2_53_lt_1024 : inject_Z (2 ^ 53) < pow2 1024.
Proof. rewrite <- pow2_Z by lia. apply pow2_lt. lia. Qed.

Lemma Qabs_inject_Z (z : Z) : Qabs (inject_Z z) = inject_Z (Z.abs z).
Proof. reflexivity. Qed.

(** Integers of magnitude at most [2 ^ 53] are computed exactly. *)
Lemma rnd_Z (s : bool) (z : Z) :
  (Z.abs z <= 2 ^ 53)%Z ->
  rnd s (inject_Z z) = if (z =? 0)%Z then zero s else of_Z z.
Proof.
  intros H. destruct (Z.eqb_spec z 0) as [-> | Hz].
  - apply rnd_zero. reflexivity.
  - rewrite rnd_representable.
    + rewrite Qred_inject_Z. reflexivity.
    + intros E. apply Hz. apply inject_Z_injective. exact E.
    + apply int_representable. exact H.
    + rewrite Qabs_inject_Z. eapply Qle_lt_trans; [|exact pow2_53_lt_1024].
      rewrite <- Zle_Qle. exact H.
Qed.

(** A non-negative exact result below a representable bound [B] is rounded
    to a finite value between [0] and [B]. *)
Lemma rnd_nonneg_le (q B : Q) :
  0 <= q -> q <= B -> representable B -> B < pow2 1024 ->
  exists r, rnd false q = Fin r /\ 0 <= r <= B /\ r == round_value q.
Proof.
  intros Hq HB Hrep Hfin.
  assert (Hr0 : 0 <= round_value q) by (apply round_value_nonneg; exact Hq).
  assert (HrB : round_value q <= B).
  { destruct (Qeq_dec q 0) as [E | Hn].
    - rewrite (round_value_0 q E). lra.
    - apply round_value_le; [lra | exact HB | exact Hrep]. }
  destruct (Qeq_dec (round_value q) 0) as [R0 | Rn].
  - exists 0. split; [|split; [lra | symmetry; exact R0]].
    unfold rnd. destruct (Qeq_bool q 0); [reflexivity|].
    rewrite (Qeq_bool_true _ 0 R0), neg_false by exact Hq. reflexivity.
  - exists (Qred (round_value q)). split; [|split].
    + apply rnd_finite; [exact Rn|]. rewrite Qabs_pos by exact Hr0. lra.
    + rewrite Qred_correct. split; assumption.
    + apply Qred_correct.
Qed.

End Rnd.

(** * The binary64 model on integers *)

Section IntegerArithmetic.
Import F64.

Lemma neg_inject_Z (z : Z) : neg (inject_Z z) = (z <? 0).
Proof.
  destruct (Z.ltb_spec z 0) as [H | H].
  - apply neg_true. change 0%Q with (inject_Z 0). rewrite <- Zlt_Qlt. exact H.
  - apply neg_false. apply inject_Z_nonneg. exact H.
Qed.

Lemma Qeq_bool_inject_Z (z : Z) : Qeq_bool (inject_Z z) 0 = (z =? 0).
Proof.
  destruct (Z.eqb_spec z 0) as [-> | H]; [reflexivity|].
  apply Qeq_bool_false. intros E. apply H.
  apply inject_Z_injective. exact E.
Qed.

Lemma Qcompare_inject_Z (x y : Z) : (inject_Z x ?= inject_Z y)%Q = (x ?= y).
Proof. unfold Qcompare, inject_Z. cbn. rewrite !Z.mul_1_r. reflexivity. Qed.

Lemma compare_of_Z (x y : Z) : compare (of_Z x) (of_Z y) = Some (x ?= y).
Proof. unfold compare, of_Z. cbn [val]. rewrite Qcompare_inject_Z. reflexivity. Qed.

Lemma le_of_Z (x y : Z) : le (of_Z x) (of_Z y) = (x <=? y).
Proof.
  unfold le. rewrite compare_of_Z. unfold Z.leb.
  destruct (x ?= y); reflexivity.
Qed.

Lemma lt_of_Z (x y : Z) : lt (of_Z x) (of_Z y) = (x <? y).
Proof.
  unfold lt. rewrite compare_of_Z. unfold Z.ltb.
  destruct (x ?= y); reflexivity.
Qed.

Lemma ge_of_Z (x y : Z) : ge (of_Z x) (of_Z y) = (y <=? x).
Proof. apply le_of_Z. Qed.

Lemma gt_of_Z (x y : Z) : gt (of_Z x) (of_Z y) = (x >? y).
Proof. unfold gt. rewrite lt_of_Z. symmetry. apply Z.gtb_ltb. Qed.

Lemma rnd_false_Z (z : Z) :
  Z.abs z <= 2 ^ 53 -> rnd false (inject_Z z) = of_Z z.
Proof.
  intros H. rewrite rnd_Z by exact H.
  destruct (Z.eqb_spec z 0) as [-> | _]; reflexivity.
Qed.

Lemma add_of_Z (x y : Z) :
  Z.abs (x + y) <= 2 ^ 53 -> add (of_Z x) (of_Z y) = of_Z (x + y).
Proof.
  intros H. unfold add, of_Z. cbn [is_zero sign val].
  rewrite !Qeq_bool_inject_Z, !neg_inject_Z.
  destruct (Z.eqb_spec x 0) as [-> | Hx], (Z.eqb_spec y 0) as [-> | Hy];
    cbn [andb]; try reflexivity;
    rewrite (rnd_comp false _ (inject_Z (_ + _)))
      by (rewrite inject_Z_plus; reflexivity);
    apply rnd_false_Z; exact H.
Qed.

Lemma opp_of_Z (y : Z) : y <> 0 -> opp (of_Z y) = of_Z (- y).
Proof.
  intros H. unfold opp, of_Z. rewrite Qeq_bool_inject_Z.
  destruct (Z.eqb_spec y 0); [contradiction|]. reflexivity.
Qed.

Lemma sub_of_Z (x y : Z) :
  Z.abs (x - y) <= 2 ^ 53 -> sub (of_Z x) (of_Z y) = of_Z (x - y).
Proof.
  intros H. unfold sub. destruct (Z.eq_dec y 0) as [-> | Hy].
  - rewrite Z.sub_0_r in *. unfold add, of_Z.
    change (opp (Fin (inject_Z 0))) with NZero. cbn [is_zero sign val].
    rewrite Qeq_bool_inject_Z, neg_inject_Z.
    destruct (Z.eqb_spec x 0) as [-> | Hx]; [reflexivity|].
    cbn [andb]. rewrite (rnd_comp false _ (inject_Z x)) by ring.
    apply rnd_false_Z. exact H.
  - rewrite opp_of_Z by exact Hy. apply add_of_Z. exact H.
Qed.

Lemma mul_of_Z (x y : Z) :
  Z.abs (x * y) <= 2 ^ 53 -> x * y <> 0 \/ (0 <= x /\ 0 <= y) ->
  mul (of_Z x) (of_Z y) = of_Z (x * y).
Proof.
  intros H Hs. unfold mul, of_Z. cbn [sign val].
  rewrite !neg_inject_Z.
  rewrite (rnd_comp _ _ (inject_Z (x * y)))
    by (rewrite inject_Z_mult; reflexivity).
  rewrite rnd_Z by exact H.
  destruct (Z.eqb_spec (x * y) 0) as [E | _]; [|reflexivity].
  destruct Hs as [Hs | [Hx Hy]]; [contradiction|].
  destruct (Z.ltb_spec x 0); [lia|]. destruct (Z.ltb_spec y 0); [lia|].
  rewrite E. reflexivity.
Qed.

(** Halving an even non-negative integer. *)
Lemma div_2_of_Z (k : Z) :
  0 <= k <= 2 ^ 53 -> div (of_Z (2 * k)) (of_Z 2) = of_Z k.
Proof.
  intros H. unfold div, of_Z. cbn [is_zero sign val].
  change (Qeq_bool (inject_Z 2) 0) with false. cbn iota.
  rewrite !neg_inject_Z.
  destruct (Z.ltb_spec (2 * k) 0); [lia|]. cbn [xorb Z.ltb Z.compare].
  rewrite (rnd_comp false _ (inject_Z k)).
  - apply rnd_false_Z. lia.
  - rewrite inject_Z_mult. change (inject_Z 2) with 2%Q. field.
Qed.

End IntegerArithmetic.

(** ** Agreement of the two models where nothing is rounded *)

Lemma exact_level_square (l : Z) :
  0 <= l <= exact_level_bound -> 9 * l * l <= 2 ^ 53.
Proof.
  unfold exact_level_bound. intros H.
  assert (l * l <= 31635421 * 31635421) by nia. lia.
Qed.

Lemma xpForNextLevel_exact (l : Z) :
  Z.abs l <= 2 ^ 49 ->
  F64.xpForNextLevel (F64.of_Z l) = F64.of_Z (xpForNextLevel l).
Proof.
  intros H. unfold F64.xpForNextLevel, xpForNextLevel.
  rewrite !ge_of_Z, !lt_of_Z.
  destruct (Z.leb_spec 0 l), (Z.ltb_spec l 16); cbn [andb].
  - rewrite mul_of_Z, add_of_Z by lia. reflexivity.
  - destruct (Z.leb_spec 16 l), (Z.ltb_spec l 31); cbn [andb];
      rewrite mul_of_Z, sub_of_Z by lia; reflexivity.
  - destruct (Z.leb_spec 16 l), (Z.ltb_spec l 31); cbn [andb];
      rewrite mul_of_Z, sub_of_Z by lia; reflexivity.
  - lia.
Qed.

Lemma totalXPForLevel_exact (l : Z) :
  l <= exact_level_bound ->
  F64.totalXPForLevel (F64.of_Z l) = F64.of_Z (totalXPForLevel l).
Proof.
  intros H. unfold F64.totalXPForLevel. rewrite !le_of_Z.
  destruct (Z.leb_spec l 0) as [H0 | H0].
  - rewrite totalXP_nonpos by exact H0. reflexivity.
  - pose proof (exact_level_square l ltac:(lia)) as Hsq.
    assert (Hll : l <= l * l) by nia.
    destruct (Z.leb_spec l 16) as [H16 | H16].
    + rewrite !mul_of_Z, add_of_Z by nia.
      rewrite totalXP_low by lia. reflexivity.
    + destruct (Z.leb_spec l 31) as [H31 | H31].
      * pose proof (totalXP_mid l ltac:(lia)) as Hm.
        rewrite !mul_of_Z, sub_of_Z, add_of_Z by nia.
        replace (5 * l * l - 81 * l + 720) with (2 * totalXPForLevel l)
          by lia.
        apply div_2_of_Z. nia.
      * pose proof (totalXP_high l ltac:(lia)) as Hm.
        rewrite !mul_of_Z, sub_of_Z, add_of_Z by nia.
        replace (9 * l * l - 325 * l + 4440) with (2 * totalXPForLevel l)
          by lia.
        apply div_2_of_Z. nia.
Qed.

Lemma exact_xp_bound_eq : exact_xp_bound = totalXPForLevel exact_level_bound.
Proof. vm_compute. reflexivity. Qed.

Lemma exact_xp_bound_lt : exact_xp_bound < 2 ^ 53.
Proof. vm_compute. reflexivity. Qed.

Lemma getLevelFromXP_below_bound (X : Z) :
  X < exact_xp_bound -> 0 <= getLevelFromXP X < exact_level_bound.
Proof.
  intros H. split; [apply getLevelFromXP_nonneg|].
  destruct (Z_lt_le_dec X 0) as [Hn | Hp].
  - rewrite getLevelFromXP_negative by exact Hn. reflexivity.
  - destruct (getLevelFromXP_band X Hp) as [_ [Hlo _]].
    destruct (Z_lt_le_dec (getLevelFromXP X) exact_level_bound) as [|Hge];
      [assumption|].
    pose proof (totalXP_mono_all _ _ Hge) as Hm.
    rewrite <- exact_xp_bound_eq in Hm. lia.
Qed.

(** The loop test of the binary64 model is the one of the exact model. *)
Lemma loop_test_exact (X l : Z) :
  0 <= l < exact_level_bound ->
  F64.le (F64.totalXPForLevel (F64.add (F64.of_Z l) (F64.of_Z 1)))
         (F64.of_Z X)
  = (totalXPForLevel (l + 1) <=? X).
Proof.
  intros H. unfold exact_level_bound in H.
  rewrite add_of_Z by lia.
  rewrite totalXPForLevel_exact by (unfold exact_level_bound; lia).
  apply le_of_Z.
Qed.

Lemma getLevelFromXP_loop_exact (fuel : nat) :
  forall X l,
    X < exact_xp_bound ->
    0 <= l <= getLevelFromXP X ->
    F64.getLevelFromXP_loop fuel (F64.of_Z X) (F64.of_Z l) =
    if Z.of_nat fuel <=? getLevelFromXP X - l
    then F64.Timeout
    else F64.Normal (F64.of_Z (getLevelFromXP X)).
Proof.
  induction fuel as [| fuel IH]; intros X l HX Hl.
  - cbn. destruct (Z.leb_spec 0 (getLevelFromXP X - l)); [reflexivity | lia].
  - pose proof (getLevelFromXP_below_bound X HX) as HL.
    cbn [F64.getLevelFromXP_loop].
    rewrite loop_test_exact by lia. rewrite (loop_tests X l Hl).
    destruct (Z.ltb_spec l (getLevelFromXP X)) as [Hlt | Hge].
    + rewrite add_of_Z by (unfold exact_level_bound in HL; lia).
      rewrite IH by (assumption || lia).
      destruct (Z.leb_spec (Z.of_nat fuel) (getLevelFromXP X - (l + 1))),
               (Z.leb_spec (Z.of_nat (S fuel)) (getLevelFromXP X - l));
        (reflexivity || lia).
    + destruct (Z.leb_spec (Z.of_nat (S fuel)) (getLevelFromXP X - l));
        [lia|]. do 2 f_equal. lia.
Qed.

(** On experience below [exact_xp_bound] the lookup of the binary64 model
    returns the level of the exact model, after one test per level and one
    more. *)
Lemma getLevelFromXP_exact (fuel : nat) (X : Z) :
  X < exact_xp_bound ->
  getLevelFromXP X < Z.of_nat fuel ->
  F64.getLevelFromXP fuel (F64.of_Z X) = F64.Normal (F64.of_Z (getLevelFromXP X)).
Proof.
  intros HX Hf. unfold F64.getLevelFromXP.
  rewrite getLevelFromXP_loop_exact.
  - rewrite Z.sub_0_r. destruct (Z.leb_spec (Z.of_nat fuel) (getLevelFromXP X));
      [lia | reflexivity].
  - exact HX.
  - pose proof (getLevelFromXP_nonneg X). lia.
Qed.

(** ** Bounds that survive rounding *)

Section Bounds.
Local Open Scope Q_scope.
Import F64.

Lemma rnd_upto (s : bool) (q B : Q) :
  q <= B -> 0 <= B -> representable B -> B < pow2 1024 ->
  upto B (rnd s q).
Proof.
  intros HqB HB Hrep Hfin. unfold rnd.
  destruct (Qeq_bool q 0) eqn:E0.
  - destruct s; cbn [zero upto]; [exact I | exact HB].
  - apply Qeq_bool_neq in E0.
    assert (Hr : round_value q <= B).
    { destruct (Qlt_le_dec 0 q) as [Hp | Hn].
      - apply round_value_le; assumption.
      - pose proof (round_value_nonpos q Hn). lra. }
    destruct (Qeq_bool (round_value q) 0).
    + destruct (neg q); cbn [zero upto]; [exact I | exact HB].
    + destruct (Qle_bool (pow2 1024) (Qabs (round_value q))) eqn:Eo.
      * apply Qle_bool_iff in Eo.
        destruct (Qlt_le_dec q 0) as [Hn | Hp].
        -- rewrite neg_true by exact Hn. exact I.
        -- exfalso. pose proof (round_value_nonneg q Hp) as H0.
           rewrite Qabs_pos in Eo by exact H0. lra.
      * cbn [upto]. rewrite Qred_correct. exact Hr.
Qed.

Lemma le_upto (B y : Q) (x : float) :
  upto B x -> 0 <= B -> B <= y -> le x (Fin y) = true.
Proof.
  intros Hx HB Hy. destruct x as [r | | | |]; cbn [upto] in Hx; try contradiction.
  - unfold le, compare. cbn [val].
    destruct (Qcompare_spec r y); try reflexivity. lra.
  - unfold le, compare. cbn [val].
    destruct (Qcompare_spec 0 y); try reflexivity. lra.
  - reflexivity.
Qed.

Lemma mul_nonneg (a b : Q) :
  0 <= a -> 0 <= b -> mul (Fin a) (Fin b) = rnd false (a * b).
Proof.
  intros Ha Hb. unfold mul. cbn [sign val].
  rewrite !neg_false by assumption. reflexivity.
Qed.

Lemma sub_upto (a b B : Q) :
  0 <= a <= B -> 0 <= b -> representable B -> B < pow2 1024 ->
  upto B (sub (Fin a) (Fin b)).
Proof.
  intros [Ha HaB] Hb Hrep Hfin. unfold sub, opp, add.
  destruct (Qeq_bool b 0) eqn:Eb; cbn [is_zero sign val].
  - destruct (Qeq_bool a 0) eqn:Ea; cbn [andb].
    + rewrite neg_false by exact Ha. cbn [andb zero upto]. lra.
    + apply rnd_upto; [lra | lra | assumption | assumption].
  - apply Qeq_bool_neq in Eb.
    rewrite (Qeq_bool_false (- b) 0) by lra. rewrite andb_false_r.
    apply rnd_upto; [lra | lra | assumption | assumption].
Qed.

Lemma add_upto (x : float) (c B B' : Q) :
  upto B x -> 0 < c -> 0 <= B -> B + c <= B' ->
  representable B' -> B' < pow2 1024 ->
  upto B' (add x (Fin c)).
Proof.
  intros Hx Hc HB HB' Hrep Hfin.
  destruct x as [r | | | |]; cbn [upto] in Hx; try contradiction.
  - unfold add. cbn [is_zero sign val].
    rewrite (Qeq_bool_false c 0) by lra. rewrite andb_false_r.
    apply rnd_upto; [lra | lra | assumption | assumption].
  - unfold add. cbn [is_zero sign val].
    rewrite (Qeq_bool_false c 0) by lra. cbn [andb].
    apply rnd_upto; [lra | lra | assumption | assumption].
  - exact I.
Qed.

Lemma div_2_upto (x : float) (B Bh : Q) :
  upto B x -> 0 <= Bh -> B <= Bh * 2 -> representable Bh ->
  Bh < pow2 1024 ->
  upto Bh (div x (of_Z 2)).
Proof.
  intros Hx HB HBh Hrep Hfin.
  destruct x as [r | | | |]; cbn [upto] in Hx; try contradiction.
  - unfold div, of_Z. cbn [is_zero sign val].
    change (Qeq_bool (inject_Z 2) 0) with false. cbn iota.
    apply rnd_upto; [|lra | assumption | assumption].
    apply Qle_shift_div_r; [reflexivity|]. change (inject_Z 2) with 2. lra.
  - unfold div, of_Z. cbn [is_zero sign val].
    change (Qeq_bool (inject_Z 2) 0) with false. cbn iota.
    apply rnd_upto; [|lra | assumption | assumption].
    apply Qle_shift_div_r; [reflexivity|]. change (inject_Z 2) with 2. lra.
  - exact I.
Qed.

(** An upper bound of the threshold of a level above [31], through the six
    operations of the last closed form. *)
Lemma totalXPForLevel_upto (v V : Z) (B1 B2 B3 B4 Bh : Q) :
  (31 < v <= V)%Z ->
  inject_Z (9 * V) <= B1 -> B1 * inject_Z V <= B2 ->
  inject_Z (325 * V) <= B3 -> B2 + 4440 <= B4 -> B4 <= Bh * 2 ->
  representable B1 -> representable B2 -> representable B3 ->
  representable B4 -> representable Bh ->
  B1 < pow2 1024 -> B2 < pow2 1024 -> B3 < pow2 1024 -> B4 < pow2 1024 ->
  Bh < pow2 1024 ->
  upto Bh (totalXPForLevel (of_Z v)).
Proof.
  intros Hv H1 H2 H3 H4 H5 R1 R2 R3 R4 R5 F1 F2 F3 F4 F5.
  assert (Hvq : 0 <= inject_Z v) by (apply inject_Z_nonneg; lia).
  assert (HvV : inject_Z v <= inject_Z V) by (rewrite <- Zle_Qle; lia).
  assert (HV : 0 <= inject_Z V) by lra.
  unfold totalXPForLevel. rewrite !le_of_Z.
  destruct (Z.leb_spec v 0); [lia|]. destruct (Z.leb_spec v 16); [lia|].
  destruct (Z.leb_spec v 31); [lia|].
  unfold of_Z.
  (* 9 * level *)
  rewrite (mul_nonneg (inject_Z 9) (inject_Z v)) by (try exact Hvq; discriminate).
  destruct (rnd_nonneg_le (inject_Z 9 * inject_Z v) B1) as [r1 [-> [[L1 U1] _]]];
    [ change (inject_Z 9) with 9; lra
    | rewrite inject_Z_mult in H1; change (inject_Z 9) with 9 in *; nra
    | exact R1 | exact F1 |].
  (* 9 * level * level *)
  rewrite (mul_nonneg r1 (inject_Z v)) by assumption.
  destruct (rnd_nonneg_le (r1 * inject_Z v) B2) as [r2 [-> [[L2 U2] _]]];
    [ nra | nra | exact R2 | exact F2 |].
  (* 325 * level *)
  rewrite (mul_nonneg (inject_Z 325) (inject_Z v)) by (try exact Hvq; discriminate).
  destruct (rnd_nonneg_le (inject_Z 325 * inject_Z v) B3) as [r3 [-> [[L3 U3] _]]];
    [ change (inject_Z 325) with 325; lra
    | rewrite inject_Z_mult in H3; change (inject_Z 325) with 325 in *; nra
    | exact R3 | exact F3 |].
  pose proof (sub_upto r2 r3 B2 (conj L2 U2) L3 R2 F2) as Hs.
  assert (HB2 : 0 <= B2) by lra.
  pose proof (add_upto _ (inject_Z 4440) B2 B4 Hs ltac:(reflexivity) HB2
                ltac:(change (inject_Z 4440) with 4440; lra) R4 F4) as Ha.
  apply (div_2_upto _ B4 Bh); [exact Ha | lra | exact H5 | exact R5 | exact F5].
Qed.

End Bounds.

(** ** The progress bar in binary64 *)

Section F64Bar.
Local Open Scope Q_scope.
Import F64.

Lemma rnd_nonneg_cases (q : Q) :
  0 <= q ->
  (exists r, rnd false q = Fin r /\ 0 <= r) \/ rnd false q = PInf.
Proof.
  intros Hq. unfold rnd. destruct (Qeq_bool q 0).
  - left. exists 0. split; [reflexivity | lra].
  - rewrite neg_false by exact Hq.
    destruct (Qeq_bool (round_value q) 0).
    + left. exists 0. split; [reflexivity | lra].
    + destruct (Qle_bool (pow2 1024) (Qabs (round_value q))).
      * right. reflexivity.
      * left. eexists. split; [reflexivity|].
        rewrite Qred_correct. apply round_value_nonneg. exact Hq.
Qed.

Lemma div_nonneg (c t : Q) :
  0 <= c -> 0 < t ->
  (exists r, div (Fin c) (Fin t) = Fin r /\ 0 <= r) \/
  div (Fin c) (Fin t) = PInf.
Proof.
  intros Hc Ht. unfold div. cbn [is_zero sign val].
  rewrite (Qeq_bool_false t 0) by lra.
  rewrite (neg_false c Hc), (neg_false t) by lra. cbn [xorb].
  apply rnd_nonneg_cases. apply Qle_shift_div_l; [exact Ht | lra].
Qed.

Lemma representable_1 : representable 1.
Proof. apply (int_representable 1). vm_compute. discriminate. Qed.

Lemma one_lt_pow2_1024 : 1 < pow2 1024.
Proof. change 1 with (pow2 0). apply pow2_lt. lia. Qed.

(** [Math.min(x, 1)] of a non-negative or infinite quotient. *)
Lemma clamp_to_1 (x : float) :
  (exists r, x = Fin r /\ 0 <= r) \/ x = PInf ->
  exists rho, Math_min x (of_Z 1) = Fin rho /\ 0 <= rho <= 1 /\
              (forall r, x = Fin r -> r <= 1 -> rho == r) /\
              (forall r, x = Fin r -> 1 <= r -> rho == 1) /\
              (x = PInf -> rho == 1).
Proof.
  intros [[r [-> Hr]] | ->].
  - unfold Math_min, compare, of_Z. cbn [val sign].
    change (inject_Z 1) with 1.
    destruct (Qcompare_spec r 1) as [E | L | G].
    + rewrite neg_false by exact Hr. exists 1.
      split; [reflexivity|]. split; [lra|].
      split; [|split]; try discriminate; intros r' [= <-] _; lra.
    + exists r. split; [reflexivity|]. split; [lra|].
      split; [|split]; try discriminate; intros r' [= <-] ?; lra.
    + exists 1. split; [reflexivity|]. split; [lra|].
      split; [|split]; try discriminate; intros r' [= <-] ?; lra.
  - exists 1. split; [reflexivity|]. split; [lra|].
    split; [|split]; try discriminate. reflexivity.
Qed.

Lemma Math_round_range (r : Q) (w : Z) :
  0 <= r <= inject_Z w ->
  Math_round (Fin r) = of_Z (round_half_up r) /\
  (0 <= round_half_up r <= w)%Z.
Proof.
  intros Hr. pose proof (round_half_up_range r w Hr) as Hz.
  split; [|exact Hz]. unfold Math_round. fold (round_half_up r).
  destruct (Z.eqb_spec (round_half_up r) 0) as [E | _]; [|reflexivity].
  rewrite E, neg_false by lra. reflexivity.
Qed.

Lemma f64_String_repeat_of_Z (s : string) (n : Z) :
  (0 <= n)%Z ->
  String_repeat s (of_Z n) = Normal (repeat_string s (Z.to_nat n)).
Proof.
  intros H. unfold String_repeat, of_Z, ToIntegerOrInfinity.
  rewrite Qtruncate_inject_Z.
  destruct (Z.ltb_spec n 0); [lia | reflexivity].
Qed.

Lemma f64_String_repeat_negative (s : string) (n : Z) :
  (n < 0)%Z -> String_repeat s (of_Z n) = Throw RangeError.
Proof.
  intros H. unfold String_repeat, of_Z, ToIntegerOrInfinity.
  rewrite Qtruncate_inject_Z.
  destruct (Z.ltb_spec n 0); [reflexivity | lia].
Qed.

(** The bar once the number of filled cells is known. *)
Lemma f64_bar_of_filled (rho : Q) (w : Z) :
  0 <= rho <= 1 -> (0 <= w <= 2 ^ 53)%Z ->
  exists p f,
    mul (Fin rho) (of_Z w) = Fin p /\
    p == round_value (rho * inject_Z w) /\
    0 <= p <= inject_Z w /\
    f = round_half_up p /\ (0 <= f <= w)%Z /\
    (filled <~ String_repeat "#" (Math_round (mul (Fin rho) (of_Z w))) ;;
     empty <~ String_repeat "-"
                (sub (of_Z w) (Math_round (mul (Fin rho) (of_Z w)))) ;;
     Normal ("[" ++ filled ++ empty ++ "]")%string)
    = Normal ("[" ++ repeat_string "#" (Z.to_nat f)
                  ++ repeat_string "-" (Z.to_nat (w - f)) ++ "]")%string.
Proof.
  intros Hrho Hw.
  pose proof (inject_Z_nonneg w ltac:(lia)) as Hwq.
  unfold of_Z at 1 2 4.
  rewrite (mul_nonneg rho (inject_Z w)) by (lra || exact Hwq).
  destruct (rnd_nonneg_le (rho * inject_Z w) (inject_Z w))
    as [p [-> [Hp Ep]]].
  - apply Qmult_le_0_compat; lra.
  - rewrite <- (Qmult_1_l (inject_Z w)) at 2.
    apply Qmult_le_compat_r; lra.
  - apply int_representable. lia.
  - eapply Qle_lt_trans; [|exact pow2_53_lt_1024]. rewrite <- Zle_Qle. lia.
  - destruct (Math_round_range p w Hp) as [-> Hf].
    exists p, (round_half_up p).
    split; [reflexivity|]. split; [exact Ep|]. split; [exact Hp|].
    split; [reflexivity|]. split; [exact Hf|].
    rewrite f64_String_repeat_of_Z by lia. cbn [bind].
    fold (of_Z w). rewrite sub_of_Z by lia.
    rewrite f64_String_repeat_of_Z by lia. reflexivity.
Qed.

(** Shape of the bar on well-formed arguments. *)
Lemma f64_renderProgressBar_shape (c t : Q) (w : Z) :
  0 <= c -> 0 < t -> (0 <= w <= 2 ^ 53)%Z ->
  exists f : Z,
    (0 <= f <= w)%Z /\
    renderProgressBar (Fin c) (Fin t) (of_Z w) =
    Normal ("[" ++ repeat_string "#" (Z.to_nat f)
                ++ repeat_string "-" (Z.to_nat (w - f)) ++ "]")%string.
Proof.
  intros Hc Ht Hw. unfold renderProgressBar. cbv zeta.
  destruct (clamp_to_1 _ (div_nonneg c t Hc Ht)) as [rho [-> [Hrho _]]].
  destruct (f64_bar_of_filled rho w Hrho Hw) as [p [f [_ [_ [_ [_ [Hf ->]]]]]]].
  exists f. split; [exact Hf | reflexivity].
Qed.

End F64Bar.

(** ** The lookup loop in binary64 *)

Section F64Loop.
Import F64.

Lemma of_Z_inj (a b : Z) : of_Z a = of_Z b -> a = b.
Proof. intros [= H]. exact H. Qed.

Lemma add_one_saturates : add (of_Z (2 ^ 53)) (of_Z 1) = of_Z (2 ^ 53).
Proof. vm_compute. reflexivity. Qed.

(** The loop variable is an integer that never leaves [0 .. 2 ^ 53]:
    incrementing [2 ^ 53] gives [2 ^ 53] again. *)
Lemma next_level (l : Z) :
  0 <= l <= 2 ^ 53 ->
  exists v, add (of_Z l) (of_Z 1) = of_Z v /\ 1 <= v <= 2 ^ 53 /\
            (l < 2 ^ 53 -> v = l + 1) /\ l <= v.
Proof.
  intros H. destruct (Z.eq_dec l (2 ^ 53)) as [-> | Hne].
  - exists (2 ^ 53). split; [exact add_one_saturates|]. lia.
  - exists (l + 1). split; [apply add_of_Z; lia|]. lia.
Qed.

Lemma getLevelFromXP_loop_levels (fuel : nat) :
  forall X l r,
    0 <= l <= 2 ^ 53 ->
    getLevelFromXP_loop fuel X (of_Z l) = Normal r ->
    exists v, r = of_Z v /\ l <= v <= 2 ^ 53.
Proof.
  induction fuel as [| fuel IH]; intros X l r Hl H; cbn [getLevelFromXP_loop] in H.
  - discriminate.
  - destruct (le (totalXPForLevel (add (of_Z l) (of_Z 1))) X).
    + destruct (next_level l Hl) as [v [Hv [Hvb [_ Hlv]]]].
      rewrite Hv in H. destruct (IH X v r ltac:(lia) H) as [u [-> Hu]].
      exists u. split; [reflexivity | lia].
    + injection H as <-. exists l. split; [reflexivity | lia].
Qed.

(** If every test passes the loop never ends. *)
Lemma getLevelFromXP_loop_diverges (X : float) :
  (forall v, 1 <= v <= 2 ^ 53 -> le (totalXPForLevel (of_Z v)) X = true) ->
  forall fuel l,
    0 <= l <= 2 ^ 53 -> getLevelFromXP_loop fuel X (of_Z l) = Timeout.
Proof.
  intros Htest. induction fuel as [| fuel IH]; intros l Hl; cbn [getLevelFromXP_loop].
  - reflexivity.
  - destruct (next_level l Hl) as [v [Hv [Hvb _]]].
    rewrite Hv, (Htest v Hvb). apply IH. lia.
Qed.

(** The level found is the first one whose next threshold is above the
    experience. *)
Lemma getLevelFromXP_loop_result (X : float) (L : Z) :
  L < 2 ^ 53 ->
  (forall k, 0 <= k < L -> le (totalXPForLevel (of_Z (k + 1))) X = true) ->
  le (totalXPForLevel (of_Z (L + 1))) X = false ->
  forall fuel l,
    0 <= l <= L -> L - l < Z.of_nat fuel ->
    getLevelFromXP_loop fuel X (of_Z l) = Normal (of_Z L).
Proof.
  intros HL Hpass Hfail. induction fuel as [| fuel IH]; intros l Hl Hf.
  - lia.
  - cbn [getLevelFromXP_loop]. rewrite add_of_Z by lia.
    destruct (Z.eq_dec l L) as [-> | Hne].
    + rewrite Hfail. reflexivity.
    + rewrite (Hpass l) by lia. apply IH; lia.
Qed.

(** More tests allowed change nothing once the loop has returned. *)
Lemma getLevelFromXP_loop_fuel (fuel : nat) :
  forall X l r k,
    getLevelFromXP_loop fuel X l = Normal r ->
    getLevelFromXP_loop (fuel + k) X l = Normal r.
Proof.
  induction fuel as [| fuel IH]; intros X l r k H; cbn [getLevelFromXP_loop] in H.
  - discriminate.
  - cbn [Nat.add getLevelFromXP_loop].
    destruct (le (totalXPForLevel (add l (of_Z 1))) X).
    + apply IH. exact H.
    + exact H.
Qed.

(** A failing test at level [2 ^ 53] at the latest ends the loop. *)
Lemma getLevelFromXP_loop_terminates (X : float) :
  le (totalXPForLevel (of_Z (2 ^ 53))) X = false ->
  forall n l,
    0 <= l < 2 ^ 53 -> Z.of_nat n = 2 ^ 53 - 1 - l ->
    exists fuel r,
      Z.of_nat fuel <= 2 ^ 53 - l /\
      getLevelFromXP_loop fuel X (of_Z l) = Normal r.
Proof.
  intros Hlast. induction n as [| n IH]; intros l Hl Hn.
  - exists 1%nat, (of_Z l). split; [lia|]. cbn [getLevelFromXP_loop].
    rewrite add_of_Z by lia. replace (l + 1) with (2 ^ 53) by lia.
    rewrite Hlast. reflexivity.
  - destruct (le (totalXPForLevel (of_Z (l + 1))) X) eqn:E.
    + destruct (IH (l + 1) ltac:(lia) ltac:(lia)) as [fuel [r [Hf Hr]]].
      exists (S fuel), r. split; [lia|]. cbn [getLevelFromXP_loop].
      rewrite add_of_Z by lia. rewrite E. exact Hr.
    + exists 1%nat, (of_Z l). split; [lia|]. cbn [getLevelFromXP_loop].
      rewrite add_of_Z by lia. rewrite E. reflexivity.
Qed.

End F64Loop.

(** ** The snapshot and the simulation in binary64, where nothing is rounded *)

Section F64Status.

Lemma ratio_in_unit (a b : Z) :
  0 <= a < b ->
  exists r, F64.div (F64.of_Z a) (F64.of_Z b) = F64.Fin r /\ (0 <= r <= 1)%Q /\
            (r == F64.round_value (inject_Z a / inject_Z b))%Q.
Proof.
  intros H. unfold F64.div, F64.of_Z. cbn [F64.is_zero F64.sign F64.val].
  rewrite !Qeq_bool_inject_Z, !neg_inject_Z.
  destruct (Z.eqb_spec b 0); [lia|].
  destruct (Z.ltb_spec a 0); [lia|]. destruct (Z.ltb_spec b 0); [lia|].
  cbn [xorb]. destruct (ratio_range a b H) as [Hlo Hhi].
  apply rnd_nonneg_le.
  - exact Hlo.
  - apply Qlt_le_weak. exact Hhi.
  - exact representable_1.
  - exact one_lt_pow2_1024.
Qed.

Lemma exact_level_representable (X : Z) :
  X < exact_xp_bound ->
  0 <= getLevelFromXP X < 31635421.
Proof. exact (getLevelFromXP_below_bound X). Qed.

(** The snapshot of an experience below [exact_xp_bound]: every integer
    field is the one of the exact model. *)
Lemma f64_getXPStatus_exact (fuel : nat) (X w : Z) :
  0 <= X < exact_xp_bound -> 0 <= w <= 2 ^ 53 ->
  getLevelFromXP X < Z.of_nat fuel ->
  exists (bar : string) (r : Q),
    F64.div (F64.of_Z (X - totalXPForLevel (getLevelFromXP X)))
        (F64.of_Z (xpForNextLevel (getLevelFromXP X))) = F64.Fin r /\
    (0 <= r <= 1)%Q /\
    F64.renderProgressBar (F64.of_Z (X - totalXPForLevel (getLevelFromXP X)))
                      (F64.of_Z (xpForNextLevel (getLevelFromXP X))) (F64.of_Z w)
      = F64.Normal bar /\
    F64.getXPStatus fuel (F64.of_Z X) (F64.of_Z w) =
    F64.Normal (F64.mkXPStatus (F64.of_Z X) (F64.of_Z (getLevelFromXP X))
              (F64.of_Z (totalXPForLevel (getLevelFromXP X)))
              (F64.of_Z (X - totalXPForLevel (getLevelFromXP X)))
              (F64.of_Z (xpForNextLevel (getLevelFromXP X)))
              (F64.of_Z (xpForNextLevel (getLevelFromXP X)
                     - (X - totalXPForLevel (getLevelFromXP X))))
              (F64.Fin r) bar).
Proof.
  intros HX Hw Hf.
  pose proof exact_xp_bound_lt as Hb.
  pose proof (exact_level_representable X ltac:(lia)) as HL.
  pose proof (xpInLevel_range X ltac:(lia)) as Hin.
  destruct (getLevelFromXP_band X ltac:(lia)) as [_ [Hlo _]].
  set (L := getLevelFromXP X) in *.
  assert (Hcost : xpForNextLevel L <= 9 * 31635421).
  { pose proof (xpForNextLevel_pos L ltac:(lia)).
    destruct (Z_lt_le_dec L 16); [rewrite xpForNextLevel_low by lia; lia|].
    destruct (Z_lt_le_dec L 31); [rewrite xpForNextLevel_mid by lia; lia|].
    rewrite xpForNextLevel_high by lia. lia. }
  destruct (ratio_in_unit _ _ Hin) as [r [Hr [Hr01 _]]].
  destruct (f64_renderProgressBar_shape
              (inject_Z (X - totalXPForLevel L))
              (inject_Z (xpForNextLevel L)) w) as [f [_ Hbar]].
  { apply inject_Z_nonneg. lia. }
  { apply inject_Z_pos. lia. }
  { exact Hw. }
  fold (F64.of_Z (X - totalXPForLevel L)) in Hbar.
  fold (F64.of_Z (xpForNextLevel L)) in Hbar.
  eexists. exists r. split; [exact Hr|]. split; [exact Hr01|].
  split; [exact Hbar|].
  unfold F64.getXPStatus. rewrite getLevelFromXP_exact by (lia || exact Hf).
  fold L. cbn [F64.bind].
  rewrite totalXPForLevel_exact by (unfold exact_level_bound; lia).
  rewrite xpForNextLevel_exact by lia.
  rewrite !sub_of_Z by lia. rewrite Hr, Hbar. reflexivity.
Qed.

Lemma f64_getXPStatus_returns (fuel : nat) (X : Z) :
  0 <= X < exact_xp_bound -> exact_level_bound <= Z.of_nat fuel ->
  exists st, F64.getXPStatus fuel (F64.of_Z X) F64.defaultBarWidth = F64.Normal st.
Proof.
  intros HX Hf.
  pose proof (getLevelFromXP_below_bound X ltac:(lia)) as HL.
  destruct (f64_getXPStatus_exact fuel X 20 HX ltac:(lia) ltac:(lia))
    as [bar [r [_ [_ [_ H]]]]].
  eexists. exact H.
Qed.

(** With running totals inside the exact range the loop of the simulation
    appends one snapshot per gain. *)
Lemma f64_simulateXPGain_loop_returns (fuel : nat) (gains : list Z) :
  exact_level_bound <= Z.of_nat fuel ->
  forall xp acc,
    (forall k, (k < List.length gains)%nat ->
               0 <= xp + sum_gains (firstn (S k) gains) < exact_xp_bound) ->
    exists sts,
      F64.simulateXPGain_loop fuel (map F64.of_Z gains) (F64.of_Z xp) acc =
        F64.Normal (F64.mkSimulation (F64.of_Z (xp + sum_gains gains)) (acc ++ sts)) /\
      List.length sts = List.length gains /\
      forall k s,
        nth_error sts k = Some s ->
        F64.getXPStatus fuel (F64.of_Z (xp + sum_gains (firstn (S k) gains)))
          F64.defaultBarWidth = F64.Normal s.
Proof.
  intros Hf. pose proof exact_xp_bound_lt as Hb.
  induction gains as [| g gains IH]; intros xp acc Hpos.
  - exists []. cbn. rewrite app_nil_r, Z.add_0_r.
    split; [reflexivity | split; [reflexivity|]].
    intros [|k] s H; discriminate.
  - assert (H0 : 0 <= xp + g < exact_xp_bound).
    { specialize (Hpos O ltac:(cbn; lia)). cbn in Hpos. lia. }
    destruct (f64_getXPStatus_returns fuel (xp + g) H0 Hf) as [s0 Hs].
    destruct (IH (xp + g) (acc ++ [s0])) as [sts [Hrun [Hlen Hnth]]].
    { intros k Hk. specialize (Hpos (S k) ltac:(cbn; lia)).
      rewrite firstn_cons, sum_gains_cons in Hpos. lia. }
    exists (s0 :: sts). split; [|split].
    + cbn [map F64.simulateXPGain_loop]. cbv zeta.
      rewrite add_of_Z by lia. rewrite Hs. cbn [F64.bind].
      rewrite Hrun, <- app_assoc, sum_gains_cons, Z.add_assoc. reflexivity.
    + cbn. rewrite Hlen. reflexivity.
    + intros [|k] s H; cbn [nth_error] in H.
      * injection H as <-. rewrite <- Hs. do 2 f_equal. cbn. lia.
      * rewrite firstn_cons, sum_gains_cons, Z.add_assoc. apply Hnth, H.
Qed.

End F64Status.

(** ** Order of binary64 numbers against integers *)

Lemma f64_le_below (a b : Z) (X : F64.float) :
  a <= b -> F64.le (F64.of_Z b) X = true -> F64.le (F64.of_Z a) X = true.
Proof.
  intros Hab. unfold F64.le, F64.compare, F64.of_Z.
  destruct X as [q | | | |]; cbn [F64.val]; try (intros H; exact H).
  - destruct (Qcompare_spec (inject_Z b) q) as [E | E | E];
      try discriminate; intros _;
      destruct (Qcompare_spec (inject_Z a) q) as [E' | E' | E'];
      try reflexivity; exfalso; rewrite Zle_Qle in Hab; lra.
  - destruct (Qcompare_spec (inject_Z b) 0) as [E | E | E];
      try discriminate; intros _;
      destruct (Qcompare_spec (inject_Z a) 0) as [E' | E' | E'];
      try reflexivity; exfalso; rewrite Zle_Qle in Hab; lra.
Qed.

Lemma f64_lt_not_le (c : Z) (X : F64.float) :
  F64.lt X (F64.of_Z c) = true -> F64.le (F64.of_Z c) X = false.
Proof.
  unfold F64.lt, F64.le, F64.compare, F64.of_Z.
  destruct X as [q | | | |]; cbn [F64.val]; try discriminate;
    try reflexivity.
  - destruct (Qcompare_spec q (inject_Z c)) as [E | E | E];
      try discriminate; intros _;
      destruct (Qcompare_spec (inject_Z c) q) as [E' | E' | E'];
      try reflexivity; exfalso; lra.
  - destruct (Qcompare_spec 0 (inject_Z c)) as [E | E | E];
      try discriminate; intros _;
      destruct (Qcompare_spec (inject_Z c) 0) as [E' | E' | E'];
      try reflexivity; exfalso; lra.
Qed.

(** The lookup of a number inside the band of a level, while the
    thresholds are exact. *)
Lemma f64_getLevelFromXP_in_band (L : Z) (X : F64.float) (fuel : nat) :
  0 <= L < exact_level_bound ->
  F64.le (F64.totalXPForLevel (F64.of_Z L)) X = true ->
  F64.lt X (F64.totalXPForLevel (F64.of_Z (L + 1))) = true ->
  L < Z.of_nat fuel ->
  F64.getLevelFromXP fuel X = F64.Normal (F64.of_Z L).
Proof.
  intros HL Hlo Hhi Hf. unfold exact_level_bound in HL.
  rewrite totalXPForLevel_exact in Hlo by (unfold exact_level_bound; lia).
  rewrite totalXPForLevel_exact in Hhi by (unfold exact_level_bound; lia).
  unfold F64.getLevelFromXP.
  apply (getLevelFromXP_loop_result X L); try lia.
  - intros k Hk.
    rewrite totalXPForLevel_exact by (unfold exact_level_bound; lia).
    apply (f64_le_below _ (totalXPForLevel L)); [|exact Hlo].
    apply totalXP_mono_all. lia.
  - rewrite totalXPForLevel_exact by (unfold exact_level_bound; lia).
    apply f64_lt_not_le. exact Hhi.
Qed.

(** Every threshold up to level [V] is below a number [y], given upper
    bounds of the intermediate results of the last closed form at [V]. *)
Lemma f64_thresholds_below (v V : Z) (B1 B2 B3 B4 Bh y : Q) :
  1 <= v <= V ->
  (inject_Z (9 * V) <= B1)%Q -> (B1 * inject_Z V <= B2)%Q ->
  (inject_Z (325 * V) <= B3)%Q -> (B2 + 4440 <= B4)%Q -> (B4 <= Bh * 2)%Q ->
  F64.is_representable B1 = true -> F64.is_representable B2 = true ->
  F64.is_representable B3 = true -> F64.is_representable B4 = true ->
  F64.is_representable Bh = true ->
  (B4 < F64.pow2 1024)%Q -> (B3 < F64.pow2 1024)%Q ->
  (Bh < F64.pow2 1024)%Q ->
  (Bh <= y)%Q -> (1507 <= y)%Q ->
  F64.le (F64.totalXPForLevel (F64.of_Z v)) (F64.Fin y) = true.
Proof.
  intros Hv H1 H2 H3 H4 H5 R1 R2 R3 R4 R5 F4 F3 F5 Hy H31.
  destruct (Z_le_gt_dec v 31) as [Hs | Hb].
  - rewrite totalXPForLevel_exact by (unfold exact_level_bound; lia).
    pose proof (totalXP_mono_all v 31 Hs) as Hm.
    change (totalXPForLevel 31) with 1507 in Hm.
    apply (le_upto (inject_Z 1507)).
    + unfold F64.of_Z. cbn [upto]. rewrite <- Zle_Qle. exact Hm.
    + discriminate.
    + exact H31.
  - assert (HV : (31 < inject_Z V)%Q).
    { change 31%Q with (inject_Z 31). rewrite <- Zlt_Qlt. lia. }
    assert (H9 : (0 <= inject_Z (9 * V))%Q) by (apply inject_Z_nonneg; lia).
    assert (H325 : (0 <= inject_Z (325 * V))%Q)
      by (apply inject_Z_nonneg; lia).
    assert (HB2 : (0 <= B2)%Q) by nra.
    assert (HBh : (0 <= Bh)%Q) by lra.
    apply (le_upto Bh); [|exact HBh | exact Hy].
    apply (totalXPForLevel_upto v V B1 B2 B3 B4 Bh);
      try assumption; try (apply is_representable_true; assumption);
      try lra; try lia.
    set (P := F64.pow2 1024) in *. nra.
Qed.

Lemma xpForNextLevel_small (L : Z) :
  0 <= L <= exact_level_bound -> 7 <= xpForNextLevel L <= 9 * exact_level_bound.
Proof.
  unfold exact_level_bound. intros H.
  pose proof (xpForNextLevel_pos L ltac:(lia)).
  destruct (Z_lt_le_dec L 16); [rewrite xpForNextLevel_low in * by lia; lia|].
  destruct (Z_lt_le_dec L 31); [rewrite xpForNextLevel_mid in * by lia; lia|].
  rewrite xpForNextLevel_high in * by lia. lia.
Qed.

Lemma f64_step_exact (L : Z) :
  0 <= L < exact_level_bound ->
  F64.sub (F64.totalXPForLevel (F64.of_Z (L + 1)))
          (F64.totalXPForLevel (F64.of_Z L))
  = F64.of_Z (xpForNextLevel L).
Proof.
  intros HL. pose proof (xpForNextLevel_small L ltac:(lia)) as Hc.
  unfold exact_level_bound in *.
  rewrite !totalXPForLevel_exact by (unfold exact_level_bound; lia).
  rewrite sub_of_Z; rewrite totalXP_step by lia.
  - f_equal. lia.
  - lia.
Qed.

(** * The claims *)




(** C2, as the code has it.  Consistency of the two level-cost functions in binary64:
    for every integer level [0 <= L <= 31635421] the difference
    [totalXPForLevel(L + 1) - totalXPForLevel(L)] is [xpForNextLevel(L)],
    at the boundaries [L = 16] and [L = 31] too, and [totalXPForLevel(L)]
    is an integer, the division by [2] being exact there. *)
Theorem f64_totalXP_step_is_xpForNextLevel :
  (forall L : Z,
      0 <= L <= exact_level_bound ->
      F64.sub (F64.totalXPForLevel (F64.of_Z (L + 1)))
              (F64.totalXPForLevel (F64.of_Z L))
      = F64.xpForNextLevel (F64.of_Z L) /\
      exists n : Z, F64.totalXPForLevel (F64.of_Z L) = F64.of_Z n) /\
  F64.sub (F64.totalXPForLevel (F64.of_Z 17)) (F64.totalXPForLevel (F64.of_Z 16))
    = F64.xpForNextLevel (F64.of_Z 16) /\
  F64.sub (F64.totalXPForLevel (F64.of_Z 32)) (F64.totalXPForLevel (F64.of_Z 31))
    = F64.xpForNextLevel (F64.of_Z 31).
Proof.
  split; [|split; vm_compute; reflexivity].
  intros L HL. split.
  - destruct (Z.eq_dec L exact_level_bound) as [-> | Hne].
    + vm_compute. reflexivity.
    + rewrite f64_step_exact by lia.
      rewrite xpForNextLevel_exact; [reflexivity|].
      unfold exact_level_bound in HL. lia.
  - exists (totalXPForLevel L). apply totalXPForLevel_exact. lia.
Qed.

Lemma f64_totalXP_step_is_xpForNextLevel_witness :
  F64.sub (F64.totalXPForLevel (F64.of_Z (1000000 + 1)))
          (F64.totalXPForLevel (F64.of_Z 1000000))
  = F64.xpForNextLevel (F64.of_Z 1000000).
Proof.
  apply (proj1 f64_totalXP_step_is_xpForNextLevel 1000000).
  unfold exact_level_bound. lia.
Defined.

(** At level [31635422] the difference of the two thresholds is
    [284718639.5], the cost [284718640], and the threshold of level
    [31635423] is not an integer. *)
Lemma f64_step_differs_from_cost :
  F64.sub (F64.totalXPForLevel (F64.of_Z 31635423))
          (F64.totalXPForLevel (F64.of_Z 31635422))
    = F64.Fin (569437279 # 2) /\
  F64.xpForNextLevel (F64.of_Z 31635422) = F64.of_Z 284718640 /\
  F64.totalXPForLevel (F64.of_Z 31635423)
    = F64.Fin (9007189613992325 # 2).
Proof. vm_compute. repeat split; reflexivity. Qed.




(** C10, as the code has it.  The lookup loop in binary64 ends for every number [X]
    below [totalXPForLevel(2 ^ 53)], about [3.65e32], after at most
    [2 ^ 53] tests; every integer of magnitude up to [2 ^ 53] is such a
    number; for [X < 7], so for every negative [X], the first test fails
    and [0] is returned, [totalXPForLevel(1)] being [7]. *)
Theorem f64_getLevelFromXP_total :
  (forall X : F64.float,
      F64.lt X (F64.totalXPForLevel (F64.of_Z (2 ^ 53))) = true ->
      exists (fuel : nat) (r : F64.float),
        Z.of_nat fuel <= 2 ^ 53 /\
        forall k : nat, F64.getLevelFromXP (fuel + k) X = F64.Normal r) /\
  (forall z : Z,
      Z.abs z <= 2 ^ 53 ->
      F64.lt (F64.of_Z z) (F64.totalXPForLevel (F64.of_Z (2 ^ 53))) = true) /\
  (forall (X : F64.float) (fuel : nat),
      F64.lt X (F64.of_Z 7) = true ->
      F64.getLevelFromXP (S fuel) X = F64.Normal (F64.of_Z 0)) /\
  F64.totalXPForLevel (F64.of_Z 1) = F64.of_Z 7.
Proof.
  split; [|split; [|split]].
  - intros X HX.
    assert (Hlast : F64.le (F64.totalXPForLevel (F64.of_Z (2 ^ 53))) X = false).
    { revert HX.
      replace (F64.totalXPForLevel (F64.of_Z (2 ^ 53)))
        with (F64.of_Z 365083372865728626479169764589568)
        by (vm_compute; reflexivity).
      apply f64_lt_not_le. }
    destruct (getLevelFromXP_loop_terminates X Hlast
                (Z.to_nat (2 ^ 53 - 1)) 0) as [fuel [r [Hf Hr]]]; [lia | lia |].
    exists fuel, r. split; [lia|].
    intros k. apply getLevelFromXP_loop_fuel. exact Hr.
  - intros z Hz.
    replace (F64.totalXPForLevel (F64.of_Z (2 ^ 53)))
      with (F64.of_Z 365083372865728626479169764589568)
      by (vm_compute; reflexivity).
    rewrite lt_of_Z. apply Z.ltb_lt. lia.
  - intros X fuel HX. unfold F64.getLevelFromXP.
    cbn [F64.getLevelFromXP_loop].
    replace (F64.totalXPForLevel (F64.add (F64.of_Z 0) (F64.of_Z 1)))
      with (F64.of_Z 7) by (vm_compute; reflexivity).
    rewrite (f64_lt_not_le 7 X HX). reflexivity.
  - vm_compute. reflexivity.
Qed.

Lemma f64_getLevelFromXP_total_witness :
  F64.getLevelFromXP 1 (F64.of_Z (-3)) = F64.Normal (F64.of_Z 0).
Proof.
  apply (proj1 (proj2 (proj2 f64_getLevelFromXP_total)) (F64.of_Z (-3)) O).
  vm_compute. reflexivity.
Defined.

(** For [X = 2 ^ 110], a binary64 integer, the loop never ends: whatever
    the number of tests allowed, it has not returned. *)
Lemma f64_getLevelFromXP_never_returns :
  F64.is_representable (inject_Z (2 ^ 110)) = true /\
  forall fuel : nat,
    F64.getLevelFromXP fuel (F64.of_Z (2 ^ 110)) = F64.Timeout.
Proof.
  split; [vm_compute; reflexivity|].
  intros fuel. unfold F64.getLevelFromXP.
  apply getLevelFromXP_loop_diverges; [|lia].
  intros v Hv.
  apply (f64_thresholds_below v (2 ^ 53)
           (inject_Z (9 * 2 ^ 53)) (inject_Z (9 * 2 ^ 106))
           (inject_Z (325 * 2 ^ 53)) (inject_Z (10 * 2 ^ 106))
           (inject_Z (5 * 2 ^ 106)));
    [ exact Hv | .. ];
    solve [ vm_compute; reflexivity | vm_compute; discriminate ].
Qed.

(** ** The progress bar *)

Lemma bar_length (a b : nat) :
  String.length
    ("[" ++ repeat_string "#" a ++ repeat_string "-" b ++ "]")%string
  = (a + b + 2)%nat.
Proof.
  cbn [append String.length]. rewrite !length_append.
  rewrite !length_repeat_char. cbn [String.length]. lia.
Qed.

(** C7. Bounds of the progress bar in binary64: for every [current >= 0],
    [total > 0] and positive integer [width] (up to [2 ^ 53], no string
    being longer), [renderProgressBar] returns a string of length exactly
    [width + 2], brackets included, in which the number of filled markers
    is between [0] and [width]. *)
Theorem f64_renderProgressBar_bounds (current total : Q) (width : Z) :
  (0 <= current)%Q -> (0 < total)%Q -> 0 < width <= 2 ^ 53 ->
  exists bar : string,
    F64.renderProgressBar (F64.Fin current) (F64.Fin total) (F64.of_Z width)
      = F64.Normal bar /\
    Z.of_nat (String.length bar) = width + 2 /\
    0 <= Z.of_nat (count_char "#" bar) <= width.
Proof.
  intros Hc Ht Hw.
  destruct (f64_renderProgressBar_shape current total width Hc Ht
              ltac:(lia)) as [f [Hf Hbar]].
  eexists. split; [exact Hbar|].
  rewrite bar_length, count_filled_cells. lia.
Qed.

Lemma f64_renderProgressBar_bounds_witness :
  exists bar : string,
    F64.renderProgressBar (F64.Fin 15) (F64.Fin 22) (F64.of_Z 11)
      = F64.Normal bar /\
    Z.of_nat (String.length bar) = 11 + 2 /\
    0 <= Z.of_nat (count_char "#" bar) <= 11.
Proof.
  apply (f64_renderProgressBar_bounds 15 22 11).
  - vm_compute. discriminate.
  - reflexivity.
  - lia.
Defined.

(** Division by a zero, as the operator [/] does it. *)
Lemma f64_div_by_zero (current total : F64.float) :
  F64.is_zero total = true ->
  F64.div current total =
  match current with
  | F64.NaN => F64.NaN
  | F64.PInf | F64.NInf =>
      F64.inf (xorb (F64.sign current) (F64.sign total))
  | _ => if F64.is_zero current then F64.NaN
         else F64.inf (xorb (F64.sign current) (F64.sign total))
  end.
Proof.
  intros Ht.
  destruct total as [t | | | |]; try discriminate;
    destruct current as [c | | | |]; cbn [F64.div F64.is_zero] in *;
    try rewrite Ht; reflexivity.
Qed.

(** The bar of a ratio clamped to [1] is full. *)
Lemma f64_full_bar (width : Z) :
  0 < width <= 2 ^ 53 ->
  F64.bind
    (F64.String_repeat "#"
       (F64.Math_round (F64.mul (F64.of_Z 1) (F64.of_Z width))))
    (fun filled =>
       F64.bind
         (F64.String_repeat "-"
            (F64.sub (F64.of_Z width)
               (F64.Math_round (F64.mul (F64.of_Z 1) (F64.of_Z width)))))
         (fun empty => F64.Normal ("[" ++ filled ++ empty ++ "]")%string))
  = F64.Normal ("[" ++ repeat_string "#" (Z.to_nat width) ++ "]")%string.
Proof.
  intros Hw. rewrite mul_of_Z by lia. rewrite Z.mul_1_l.
  assert (Hr : F64.Math_round (F64.of_Z width) = F64.of_Z width).
  { destruct (Math_round_range (inject_Z width) width) as [E _].
    - split; [apply inject_Z_nonneg; lia | apply Qle_refl].
    - unfold F64.of_Z at 1. rewrite E, round_half_up_inject_Z. reflexivity. }
  rewrite Hr, sub_of_Z by lia. rewrite Z.sub_diag.
  rewrite !f64_String_repeat_of_Z by lia. reflexivity.
Qed.

Lemma f64_positive_number (x : F64.float) :
  F64.gt x (F64.of_Z 0) = true ->
  F64.sign x = false /\ F64.is_zero x = false /\ x <> F64.NaN /\
  (x = F64.PInf \/ exists c, x = F64.Fin c).
Proof.
  unfold F64.gt, F64.lt, F64.compare, F64.of_Z.
  destruct x as [c | | | |]; cbn [F64.val F64.sign F64.is_zero];
    try discriminate.
  - destruct (Qcompare_spec (inject_Z 0) c) as [E | E | E];
      try discriminate. intros _. change (inject_Z 0) with 0%Q in E.
    rewrite neg_false by lra. rewrite Qeq_bool_false by lra.
    repeat split; [discriminate | right; exists c; reflexivity].
  - intros _. repeat split; [discriminate | left; reflexivity].
Qed.

Lemma f64_negative_number (x : F64.float) :
  F64.lt x (F64.of_Z 0) = true ->
  F64.sign x = true /\ F64.is_zero x = false /\ x <> F64.NaN /\
  (x = F64.NInf \/ exists c, x = F64.Fin c).
Proof.
  unfold F64.lt, F64.compare, F64.of_Z.
  destruct x as [c | | | |]; cbn [F64.val F64.sign F64.is_zero];
    try discriminate.
  - destruct (Qcompare_spec c (inject_Z 0)) as [E | E | E];
      try discriminate. intros _. change (inject_Z 0) with 0%Q in E.
    rewrite neg_true by lra. rewrite Qeq_bool_false by lra.
    repeat split; [discriminate | right; exists c; reflexivity].
  - intros _. repeat split; [discriminate | left; reflexivity].
Qed.

Lemma f64_div_nonzero_by_zero (current total : F64.float) :
  F64.is_zero total = true -> F64.is_zero current = false ->
  current <> F64.NaN ->
  F64.div current total
  = F64.inf (xorb (F64.sign current) (F64.sign total)).
Proof.
  intros Ht Hc Hn. rewrite f64_div_by_zero by exact Ht.
  destruct current as [c | | | |]; try reflexivity.
  - rewrite Hc. reflexivity.
  - discriminate Hc.
  - contradiction Hn. reflexivity.
Qed.

(** A quotient [+Infinity] is clamped to [1]: the bar is full. *)
Lemma f64_bar_of_PInf (current total : F64.float) (width : Z) :
  0 < width <= 2 ^ 53 ->
  F64.div current total = F64.PInf ->
  F64.renderProgressBar current total (F64.of_Z width)
  = F64.Normal ("[" ++ repeat_string "#" (Z.to_nat width) ++ "]")%string.
Proof.
  intros Hw Hd. unfold F64.renderProgressBar. cbv zeta. rewrite Hd.
  change (F64.Math_min F64.PInf (F64.of_Z 1)) with (F64.of_Z 1).
  apply f64_full_bar. exact Hw.
Qed.

(** A quotient [-Infinity] reaches [repeat] as a count: [RangeError]. *)
Lemma f64_bar_of_NInf (current total : F64.float) (width : Z) :
  0 < width ->
  F64.div current total = F64.NInf ->
  F64.renderProgressBar current total (F64.of_Z width)
  = F64.Throw RangeError.
Proof.
  intros Hw Hd. unfold F64.renderProgressBar. cbv zeta. rewrite Hd.
  change (F64.Math_min F64.NInf (F64.of_Z 1)) with F64.NInf.
  unfold F64.mul, F64.of_Z. cbn [F64.is_zero F64.sign].
  rewrite Qeq_bool_inject_Z, neg_inject_Z.
  destruct (Z.eqb_spec width 0); [lia|].
  destruct (Z.ltb_spec width 0); [lia|]. reflexivity.
Qed.

(** A quotient [NaN] gives two empty repetitions. *)
Lemma f64_bar_of_NaN (current total : F64.float) (width : Z) :
  F64.div current total = F64.NaN ->
  F64.renderProgressBar current total (F64.of_Z width)
  = F64.Normal "[]"%string.
Proof.
  intros Hd. unfold F64.renderProgressBar. cbv zeta. rewrite Hd.
  reflexivity.
Qed.

(** C4, as the code has it.  With [total] a zero and a positive integer [width], no
    division-by-zero error is raised; the result follows the quotient
    [current / total]. It is [NaN] for a zero [current]: the bar is ["[]"].
    For [total = +0] it is [+Infinity] when [current > 0], and the full bar
    is returned, and [-Infinity] when [current < 0], and [repeat] raises
    [RangeError]; for [total = -0] the two cases are exchanged. *)
Theorem f64_renderProgressBar_zero_total
    (current total : F64.float) (width : Z) :
  F64.is_zero total = true -> 0 < width <= 2 ^ 53 ->
  (F64.is_zero current = true ->
     F64.renderProgressBar current total (F64.of_Z width)
     = F64.Normal "[]"%string) /\
  (F64.gt current (F64.of_Z 0) = true ->
     F64.renderProgressBar current total (F64.of_Z width)
     = if F64.sign total then F64.Throw RangeError
       else F64.Normal
              ("[" ++ repeat_string "#" (Z.to_nat width) ++ "]")%string) /\
  (F64.lt current (F64.of_Z 0) = true ->
     F64.renderProgressBar current total (F64.of_Z width)
     = if F64.sign total
       then F64.Normal
              ("[" ++ repeat_string "#" (Z.to_nat width) ++ "]")%string
       else F64.Throw RangeError).
Proof.
  intros Ht Hw. split; [|split]; intros Hc.
  - apply f64_bar_of_NaN. rewrite f64_div_by_zero by exact Ht.
    destruct current as [c | | | |]; try discriminate Hc;
      try rewrite Hc; reflexivity.
  - destruct (f64_positive_number current Hc) as [Hs [Hz [Hn _]]].
    pose proof (f64_div_nonzero_by_zero current total Ht Hz Hn) as Hd.
    rewrite Hs in Hd. cbn [xorb] in Hd.
    destruct (F64.sign total); cbn [F64.inf] in Hd.
    + apply f64_bar_of_NInf; [lia | exact Hd].
    + apply f64_bar_of_PInf; [exact Hw | exact Hd].
  - destruct (f64_negative_number current Hc) as [Hs [Hz [Hn _]]].
    pose proof (f64_div_nonzero_by_zero current total Ht Hz Hn) as Hd.
    rewrite Hs in Hd. cbn [xorb negb] in Hd.
    destruct (F64.sign total); cbn [F64.inf negb] in Hd.
    + apply f64_bar_of_PInf; [exact Hw | exact Hd].
    + apply f64_bar_of_NInf; [lia | exact Hd].
Qed.

Lemma f64_renderProgressBar_zero_total_witness :
  F64.renderProgressBar (F64.of_Z 5) F64.NZero (F64.of_Z 20)
  = F64.Throw RangeError.
Proof.
  apply (proj1 (proj2 (f64_renderProgressBar_zero_total
                         (F64.of_Z 5) F64.NZero 20
                         ltac:(reflexivity) ltac:(lia)))).
  reflexivity.
Defined.

(** With [total = 0] and [current = 5] the call returns the completely
    filled bar; no exception is raised. *)
Lemma f64_zero_total_returns_full_bar :
  F64.renderProgressBar (F64.of_Z 5) (F64.of_Z 0) (F64.of_Z 20)
  = F64.Normal "[####################]"%string.
Proof. vm_compute. reflexivity. Qed.

(** ** The status snapshot *)

(** C8, as the code has it.  Consistency of the snapshot in binary64: for every
    integer experience [0 <= X < 4503594237558892] (and every integer bar
    width from [0] to [2 ^ 53], the default [20] among them) [getXPStatus]
    returns a snapshot whose fields are derived from one another as the
    source states, [xpInLevel = X - totalXPForLevel(level)],
    [xpNeeded = xpForLevelUp - xpInLevel],
    [progressRatio = xpInLevel / xpForLevelUp], and whose progress ratio
    lies in the interval from [0] to [1]. *)
Theorem f64_getXPStatus_consistent (X w : Z) (fuel : nat) :
  0 <= X < exact_xp_bound -> 0 <= w <= 2 ^ 53 ->
  exact_level_bound <= Z.of_nat fuel ->
  exists st : F64.XPStatus,
    F64.getXPStatus fuel (F64.of_Z X) (F64.of_Z w) = F64.Normal st /\
    F64.totalXP st = F64.of_Z X /\
    F64.getLevelFromXP fuel (F64.of_Z X) = F64.Normal (F64.level st) /\
    F64.xpAtCurrentLevelStart st = F64.totalXPForLevel (F64.level st) /\
    F64.xpInLevel st
      = F64.sub (F64.of_Z X) (F64.totalXPForLevel (F64.level st)) /\
    F64.xpForLevelUp st = F64.xpForNextLevel (F64.level st) /\
    F64.xpNeeded st = F64.sub (F64.xpForLevelUp st) (F64.xpInLevel st) /\
    F64.progressRatio st = F64.div (F64.xpInLevel st) (F64.xpForLevelUp st) /\
    F64.renderProgressBar (F64.xpInLevel st) (F64.xpForLevelUp st)
      (F64.of_Z w) = F64.Normal (F64.progressBar st) /\
    exists r : Q, F64.progressRatio st = F64.Fin r /\ (0 <= r <= 1)%Q.
Proof.
  intros HX Hw Hf.
  pose proof exact_xp_bound_lt as Hb.
  pose proof (getLevelFromXP_below_bound X ltac:(lia)) as HL.
  pose proof (xpInLevel_range X ltac:(lia)) as Hin.
  assert (Hfl : getLevelFromXP X < Z.of_nat fuel) by lia.
  pose proof (xpForNextLevel_small (getLevelFromXP X) ltac:(lia)) as Hc.
  unfold exact_level_bound in Hc.
  destruct (f64_getXPStatus_exact fuel X w HX Hw Hfl)
    as [bar [r [Hr [Hr01 [Hbar Hst]]]]].
  eexists. split; [exact Hst|].
  cbn [F64.totalXP F64.level F64.xpAtCurrentLevelStart F64.xpInLevel
       F64.xpForLevelUp F64.xpNeeded F64.progressRatio F64.progressBar].
  split; [reflexivity|].
  split; [apply getLevelFromXP_exact; lia|].
  split; [symmetry; apply totalXPForLevel_exact; lia|].
  split.
  { rewrite totalXPForLevel_exact by lia. symmetry. apply sub_of_Z. lia. }
  split.
  { symmetry. apply xpForNextLevel_exact. unfold exact_level_bound in HL. lia. }
  split.
  { symmetry. apply sub_of_Z. lia. }
  split; [symmetry; exact Hr|].
  split; [exact Hbar|].
  exists r. split; [reflexivity | exact Hr01].
Qed.

Lemma f64_getXPStatus_consistent_witness :
  exists st : F64.XPStatus,
    F64.getXPStatus (Z.to_nat exact_level_bound) (F64.of_Z 1500) (F64.of_Z 20)
      = F64.Normal st /\
    F64.totalXP st = F64.of_Z 1500 /\
    F64.getLevelFromXP (Z.to_nat exact_level_bound) (F64.of_Z 1500)
      = F64.Normal (F64.level st) /\
    F64.xpAtCurrentLevelStart st = F64.totalXPForLevel (F64.level st) /\
    F64.xpInLevel st
      = F64.sub (F64.of_Z 1500) (F64.totalXPForLevel (F64.level st)) /\
    F64.xpForLevelUp st = F64.xpForNextLevel (F64.level st) /\
    F64.xpNeeded st = F64.sub (F64.xpForLevelUp st) (F64.xpInLevel st) /\
    F64.progressRatio st = F64.div (F64.xpInLevel st) (F64.xpForLevelUp st) /\
    F64.renderProgressBar (F64.xpInLevel st) (F64.xpForLevelUp st)
      (F64.of_Z 20) = F64.Normal (F64.progressBar st) /\
    exists r : Q, F64.progressRatio st = F64.Fin r /\ (0 <= r <= 1)%Q.
Proof.
  apply (f64_getXPStatus_consistent 1500 20 (Z.to_nat exact_level_bound)).
  - unfold exact_xp_bound. lia.
  - lia.
  - rewrite Z2Nat.id; unfold exact_level_bound; lia.
Defined.

(** The snapshot once the level is known. *)
Lemma f64_getXPStatus_of_level (fuel : nat) (X w L : F64.float) :
  F64.getLevelFromXP fuel X = F64.Normal L ->
  F64.getXPStatus fuel X w =
  F64.bind
    (F64.renderProgressBar (F64.sub X (F64.totalXPForLevel L))
       (F64.xpForNextLevel L) w)
    (fun bar =>
       F64.Normal
         (F64.mkXPStatus X L (F64.totalXPForLevel L)
            (F64.sub X (F64.totalXPForLevel L)) (F64.xpForNextLevel L)
            (F64.sub (F64.xpForNextLevel L)
               (F64.sub X (F64.totalXPForLevel L)))
            (F64.div (F64.sub X (F64.totalXPForLevel L))
               (F64.xpForNextLevel L))
            bar)).
Proof. intros H. unfold F64.getXPStatus. rewrite H. reflexivity. Qed.

(** A lookup that returns with some number of tests returns the same level
    with any other number that lets it return. *)
Lemma f64_getLevelFromXP_deterministic (fuel fuel' : nat) (X r r' : F64.float) :
  F64.getLevelFromXP fuel X = F64.Normal r ->
  F64.getLevelFromXP fuel' X = F64.Normal r' ->
  r = r'.
Proof.
  unfold F64.getLevelFromXP. intros H H'.
  apply (getLevelFromXP_loop_fuel fuel _ _ _ fuel') in H.
  apply (getLevelFromXP_loop_fuel fuel' _ _ _ fuel) in H'.
  rewrite Nat.add_comm in H'. rewrite H in H'. injection H' as E. exact E.
Qed.

(** The level found for [X = 36449987805001768]: the thresholds of the
    levels up to [89999977] are bounded through the closed form, those of
    the next [25] levels are computed. *)
Lemma f64_level_of_36449987805001768 (fuel : nat) :
  90000002 < Z.of_nat fuel ->
  F64.getLevelFromXP fuel (F64.of_Z 36449987805001768)
  = F64.Normal (F64.of_Z 90000002).
Proof.
  intros Hf. unfold F64.getLevelFromXP.
  apply (getLevelFromXP_loop_result _ 90000002); try lia.
  - intros k Hk.
    destruct (Z_le_gt_dec (k + 1) 89999977) as [Hs | Hb].
    + apply (f64_thresholds_below (k + 1) 89999977
               (inject_Z 809999793) (inject_Z 72899962740004768)
               (inject_Z 29249992525) (inject_Z 72899962740009216)
               (inject_Z 36449981370004608));
        [ lia | .. ];
        solve [ vm_compute; reflexivity | vm_compute; discriminate ].
    + assert (Hall :
        forallb (fun i =>
                   F64.le (F64.totalXPForLevel
                             (F64.of_Z (89999977 + Z.of_nat i)))
                          (F64.of_Z 36449987805001768))
                (seq 1 25) = true) by (vm_compute; reflexivity).
      rewrite forallb_forall in Hall.
      specialize (Hall (Z.to_nat (k + 1 - 89999977))).
      rewrite Z2Nat.id in Hall by lia.
      replace (89999977 + (k + 1 - 89999977)) with (k + 1) in Hall by lia.
      apply Hall. apply in_seq. lia.
  - vm_compute. reflexivity.
Qed.

(** For [X = 36449987805001768], a binary64 integer, the snapshot has level
    [90000002], [xpInLevel = 809999864] above [xpForLevelUp = 809999860],
    [xpNeeded = -4] and a progress ratio above [1]; this is the only
    snapshot the call returns. *)
Lemma f64_getXPStatus_ratio_above_one :
  F64.is_representable (inject_Z 36449987805001768) = true /\
  (exists st : F64.XPStatus,
      F64.getXPStatus (Z.to_nat 90000003) (F64.of_Z 36449987805001768)
        F64.defaultBarWidth = F64.Normal st) /\
  forall (fuel : nat) (st : F64.XPStatus),
    F64.getXPStatus fuel (F64.of_Z 36449987805001768) F64.defaultBarWidth
      = F64.Normal st ->
    F64.level st = F64.of_Z 90000002 /\
    F64.xpInLevel st = F64.of_Z 809999864 /\
    F64.xpForLevelUp st = F64.of_Z 809999860 /\
    F64.xpNeeded st = F64.of_Z (-4) /\
    F64.progressRatio st = F64.Fin (2251799824805249 # 2251799813685248) /\
    F64.gt (F64.progressRatio st) (F64.of_Z 1) = true.
Proof.
  split; [vm_compute; reflexivity|]. split.
  - rewrite (f64_getXPStatus_of_level _ _ _ (F64.of_Z 90000002)).
    + vm_compute. eexists. reflexivity.
    + apply f64_level_of_36449987805001768. rewrite Z2Nat.id; lia.
  - intros fuel st H.
    assert (HL : F64.getLevelFromXP fuel (F64.of_Z 36449987805001768)
                 = F64.Normal (F64.of_Z 90000002)).
    { unfold F64.getXPStatus in H.
      destruct (F64.getLevelFromXP fuel (F64.of_Z 36449987805001768))
        as [l | e |] eqn:E; try discriminate H.
      f_equal.
      apply (f64_getLevelFromXP_deterministic fuel (Z.to_nat 90000003)
               (F64.of_Z 36449987805001768)); [exact E|].
      apply f64_level_of_36449987805001768. rewrite Z2Nat.id; lia. }
    rewrite (f64_getXPStatus_of_level _ _ _ _ HL) in H.
    vm_compute in H. injection H as <-.
    vm_compute. repeat split; reflexivity.
Qed.

(** ** The simulation *)

(** C5, as the code has it.  In binary64, for every integer initial experience [X0]
    and every list of integer gains [g1 .. gn] whose running totals
    [X0 + g1 + ... + gk] all lie in [0 .. 4503594237558891],
    [simulateXPGain] returns, [finalXP] is [X0 + g1 + ... + gn], [steps]
    has length [n] and for every [k] in [1 .. n] its [k]-th element is the
    snapshot [getXPStatus(X0 + g1 + ... + gk)]. *)
Theorem f64_simulateXPGain_spec (X0 : Z) (gains : list Z) (fuel : nat) :
  exact_level_bound <= Z.of_nat fuel ->
  (forall k, (1 <= k <= List.length gains)%nat ->
             0 <= X0 + sum_gains (firstn k gains) < exact_xp_bound) ->
  exists r : F64.Simulation,
    F64.simulateXPGain fuel (F64.of_Z X0) (map F64.of_Z gains)
      = F64.Normal r /\
    F64.finalXP r = F64.of_Z (X0 + sum_gains gains) /\
    List.length (F64.steps r) = List.length gains /\
    forall k, (1 <= k <= List.length gains)%nat ->
      exists st,
        nth_error (F64.steps r) (k - 1) = Some st /\
        F64.getXPStatus fuel (F64.of_Z (X0 + sum_gains (firstn k gains)))
          F64.defaultBarWidth = F64.Normal st.
Proof.
  intros Hf Hpos. unfold F64.simulateXPGain.
  destruct (f64_simulateXPGain_loop_returns fuel gains Hf X0 [])
    as [sts [Hrun [Hlen Hnth]]].
  { intros k Hk. apply Hpos. lia. }
  cbn [app] in Hrun.
  eexists. split; [exact Hrun|]. cbn [F64.finalXP F64.steps].
  split; [reflexivity|]. split; [exact Hlen|].
  intros k Hk.
  destruct (nth_error sts (k - 1)) as [st |] eqn:E.
  - exists st. split; [reflexivity|].
    replace k with (S (k - 1)) at 1 by lia. apply Hnth. exact E.
  - apply nth_error_None in E. lia.
Qed.

Lemma f64_simulateXPGain_spec_witness :
  exists r : F64.Simulation,
    F64.simulateXPGain (Z.to_nat exact_level_bound) (F64.of_Z 1000)
      (map F64.of_Z [50; 200; 300]) = F64.Normal r /\
    F64.finalXP r = F64.of_Z (1000 + sum_gains [50; 200; 300]) /\
    List.length (F64.steps r) = List.length [50; 200; 300] /\
    forall k, (1 <= k <= List.length [50; 200; 300])%nat ->
      exists st,
        nth_error (F64.steps r) (k - 1) = Some st /\
        F64.getXPStatus (Z.to_nat exact_level_bound)
          (F64.of_Z (1000 + sum_gains (firstn k [50; 200; 300])))
          F64.defaultBarWidth = F64.Normal st.
Proof.
  apply (f64_simulateXPGain_spec 1000 [50; 200; 300]
           (Z.to_nat exact_level_bound)).
  - rewrite Z2Nat.id; unfold exact_level_bound; lia.
  - intros k Hk. cbn in Hk. unfold exact_xp_bound.
    destruct k as [| [| [| [| k]]]]; cbn; lia.
Defined.

(** From [X0 = 0] the single gain [-1] makes the snapshot, and with it the
    simulation, raise a [RangeError]: no [finalXP] and no steps are
    returned. *)
Lemma f64_simulateXPGain_negative_total_throws :
  (forall fuel : nat,
      F64.getXPStatus (S fuel) (F64.of_Z (-1)) F64.defaultBarWidth
      = F64.Throw RangeError) /\
  (forall fuel : nat,
      F64.simulateXPGain (S fuel) (F64.of_Z 0) [F64.of_Z (-1)]
      = F64.Throw RangeError).
Proof.
  assert (H : forall fuel : nat,
             F64.getXPStatus (S fuel) (F64.of_Z (-1)) F64.defaultBarWidth
             = F64.Throw RangeError).
  { intros fuel.
    rewrite (f64_getXPStatus_of_level _ _ _ (F64.of_Z 0)).
    - vm_compute. reflexivity.
    - reflexivity. }
  split; [exact H|].
  intros fuel. unfold F64.simulateXPGain.
  cbn [F64.simulateXPGain_loop]. cbv zeta.
  change (F64.add (F64.of_Z 0) (F64.of_Z (-1))) with (F64.of_Z (-1)).
  rewrite H. reflexivity.
Qed.

(** The running total is a sum of binary64 numbers: from
    [9007199254740991] two gains of [1] end at [9007199254740992]. *)
Lemma f64_sum_absorbs_gain :
  F64.add (F64.add (F64.of_Z 9007199254740991) (F64.of_Z 1)) (F64.of_Z 1)
  = F64.of_Z 9007199254740992.
Proof. vm_compute. reflexivity. Qed.

(** ** Experience between levels *)



(** ** Percent of a level *)

(** C9, as the code has it.  In binary64, for every integer level [0 <= L <= 2 ^ 49]
    and every percent [0 <= P <= 1], [xpAtPercent(L, P)] is the product
    [P * xpForNextLevel(L)] rounded to binary64 first, then to the nearest
    integer with ties away from zero; it lies between [0] and the cost; in
    particular [xpAtPercent(10, 0.5)] is [14]. *)
Theorem f64_xpAtPercent_rounding :
  (forall (L : Z) (P : Q),
      0 <= L <= 2 ^ 49 -> (0 <= P <= 1)%Q ->
      exists (p : Q) (r : Z),
        F64.mul (F64.Fin P) (F64.xpForNextLevel (F64.of_Z L)) = F64.Fin p /\
        (p == F64.round_value (P * inject_Z (xpForNextLevel L)))%Q /\
        F64.xpAtPercent (F64.of_Z L) (F64.Fin P) = F64.of_Z r /\
        r = round_half_away_from_zero p /\
        (inject_Z r - (1 # 2) <= p < inject_Z r + (1 # 2))%Q /\
        0 <= r <= xpForNextLevel L) /\
  F64.xpAtPercent (F64.of_Z 10) (F64.Fin (1 # 2)) = F64.of_Z 14.
Proof.
  split; [|vm_compute; reflexivity].
  intros L P HL HP. unfold F64.xpAtPercent. cbv zeta.
  rewrite xpForNextLevel_exact by lia.
  assert (Hc : 0 <= xpForNextLevel L <= 2 ^ 53).
  { pose proof (xpForNextLevel_pos L ltac:(lia)).
    destruct (Z_lt_le_dec L 16); [rewrite xpForNextLevel_low in * by lia; lia|].
    destruct (Z_lt_le_dec L 31); [rewrite xpForNextLevel_mid in * by lia; lia|].
    rewrite xpForNextLevel_high in * by lia. lia. }
  destruct (f64_bar_of_filled P (xpForNextLevel L) HP Hc)
    as [p [f [Hmul [Ep [Hp [Hf [Hfr _]]]]]]].
  exists p, f. rewrite Hmul.
  split; [reflexivity|]. split; [exact Ep|].
  destruct (Math_round_range p (xpForNextLevel L) Hp) as [Hr _].
  split; [rewrite Hr, Hf; reflexivity|].
  split; [rewrite Hf; apply round_half_up_away_nonneg; apply Hp|].
  split; [rewrite Hf; apply round_half_up_bracket | exact Hfr].
Qed.

Lemma f64_xpAtPercent_rounding_witness :
  exists (p : Q) (r : Z),
    F64.mul (F64.Fin (1 # 3)) (F64.xpForNextLevel (F64.of_Z 40)) = F64.Fin p /\
    (p == F64.round_value ((1 # 3) * inject_Z (xpForNextLevel 40)))%Q /\
    F64.xpAtPercent (F64.of_Z 40) (F64.Fin (1 # 3)) = F64.of_Z r /\
    r = round_half_away_from_zero p /\
    (inject_Z r - (1 # 2) <= p < inject_Z r + (1 # 2))%Q /\
    0 <= r <= xpForNextLevel 40.
Proof.
  apply (proj1 f64_xpAtPercent_rounding 40 (1 # 3)).
  - lia.
  - split; vm_compute; discriminate.
Defined.

(** For the percent [0.07142857142857142], a binary64 number between [0]
    and [1], and level [0], whose cost is [7], the exact product is below
    one half and rounds to [0], while [xpAtPercent] returns [1]: the
    binary64 product is exactly one half. *)
Lemma f64_xpAtPercent_rounds_the_rounded_product :
  F64.is_representable (2573485501354569 # 36028797018963968) = true /\
  F64.xpForNextLevel (F64.of_Z 0) = F64.of_Z 7 /\
  round_half_away_from_zero
    ((2573485501354569 # 36028797018963968) * inject_Z 7) = 0 /\
  F64.mul (F64.Fin (2573485501354569 # 36028797018963968)) (F64.of_Z 7)
    = F64.Fin (1 # 2) /\
  F64.xpAtPercent (F64.of_Z 0)
    (F64.Fin (2573485501354569 # 36028797018963968)) = F64.of_Z 1.
Proof. vm_compute. repeat split; reflexivity. Qed.

(** * Further properties of the module *)














Section BarTheorems.
Local Open Scope Q_scope.







End BarTheorems.

